(** * A lock-free MPMC queue with split reference counts (queue.h)

    Shallow embedding of [lock_free_queue<T>] and verification of its
    sequential behaviour, of its reclamation arithmetic and of the release
    that follows a failed install under any interleaving, with three
    concrete executions: a race of two producers, a release that frees a
    node, and an execution that loses a push.

    Modelling conventions.
    - Memory is one heap of cells, a [gmap] from addresses to either a
      [node] or a heap copy of a [T]; [nullptr] is [None].
    - Every access to shared memory ([std::atomic] operations, the plain
      accesses to [next], [new], [delete]) is one [action]; a member
      function is a [prog], a tree of actions.  [run] executes a program
      without interference (one thread), [interleave] executes a pool of
      programs under a schedule, one action per tick.  Interleavings are
      sequentially consistent: memory orders are not modelled.
    - An [int] is a [Z] reduced to the 32-bit two's-complement range after
      every operation ([to_int]): signed overflow, which C++ leaves
      undefined, wraps as it does on the targets of the code.  The unsigned
      bit-fields of [node_counter] wrap by definition ([to_internal],
      [to_external]).  Null and dangling dereferences are undefined
      behaviour, a fault.
    - The loops of the source ([for (;;)], [do ... while (!cas)]) carry a
      fuel bound; running out of fuel is a distinguished fault that no
      theorem below accepts as a result. *)

From stdpp Require Import gmap list fin_maps.

Open Scope Z_scope.

(** ** Data model *)

(** Non-null addresses; a pointer is an [option addr]. *)
Definition addr := positive.
Definition pointer := option addr.

(** [struct counted_node_ptr { int external_count; node* ptr; }] *)
Module counted_node_ptr.
Record t := mk { external_count : Z; ptr : pointer }.
End counted_node_ptr.

(** [struct node_counter { unsigned internal_count:30; unsigned external_count:2; }] *)
Module node_counter.
Record t := mk { internal_count : Z; external_count : Z }.
End node_counter.

(** [struct node { atomic<T*> data; atomic<node_counter> count; counted_node_ptr next; }] *)
Module node.
Record t := mk { data : pointer; count : node_counter.t; next : counted_node_ptr.t }.
End node.

#[global] Instance counted_node_ptr_eq_dec : EqDecision counted_node_ptr.t.
Proof. solve_decision. Defined.
#[global] Instance node_counter_eq_dec : EqDecision node_counter.t.
Proof. solve_decision. Defined.

(** The range of [int], and the reduction of a result to it. *)
Definition INT_MIN : Z := - 2 ^ 31.
Definition INT_MAX : Z := 2 ^ 31 - 1.
Definition to_int (z : Z) : Z := (z + 2 ^ 31) mod 2 ^ 32 - 2 ^ 31.

(** Width of the two bit-fields of [node_counter]. *)
Definition internal_modulus : Z := 2 ^ 30.
Definition external_modulus : Z := 2 ^ 2.

(** Conversion of an [int] result to the unsigned bit-field it is stored in. *)
Definition to_internal (z : Z) : Z := z mod internal_modulus.
Definition to_external (z : Z) : Z := z mod external_modulus.

(** [node::node()]: the counter starts at (0, 2), [next] and [data] null. *)
Definition new_node : node.t :=
  node.mk None (node_counter.mk 0 2) (counted_node_ptr.mk 0 None).

(** The counter update of one iteration of [release_ref]:
    [--new_counter.internal_count].  The bit-field is promoted to [int],
    decremented, and converted back. *)
Definition release_ref_counter (old_counter : node_counter.t) : node_counter.t :=
  node_counter.mk
    (to_internal (to_int (node_counter.internal_count old_counter - 1)))
    (node_counter.external_count old_counter).

(** The counter update of one iteration of [free_external_counter]:
    [--new_counter.external_count; new_counter.internal_count += count_increase]. *)
Definition free_external_counter_counter
    (old_counter : node_counter.t) (count_increase : Z) : node_counter.t :=
  node_counter.mk
    (to_internal (to_int (node_counter.internal_count old_counter + count_increase)))
    (to_external (to_int (node_counter.external_count old_counter - 1))).

(** [!new_counter.internal_count && !new_counter.external_count] *)
Definition counter_is_zero (c : node_counter.t) : bool :=
  (node_counter.internal_count c =? 0) && (node_counter.external_count c =? 0).

(** One claim on a slot, as [increase_external_count] computes it:
    [++new_counter.external_count]. *)
Definition claim (external_count : Z) : Z := to_int (external_count + 1).

(** The two atomic members of the queue. *)
Inductive slot := Head | Tail.

Inductive fault := bad_alloc | undefined_behaviour | out_of_fuel.

Inductive result (A : Type) :=
  | Done (a : A)
  | Aborted (f : fault).
Arguments Done {A} a.
Arguments Aborted {A} f.

(** A heap cell: a node, or the heap copy of a value. *)
Inductive cell (T : Type) :=
  | CNode (n : node.t)
  | CVal (v : T).
Arguments CNode {T} n.
Arguments CVal {T} v.

(** The shared memory: the two atomic members of the queue and the heap. *)
Record state (T : Type) := mk_state {
  head : counted_node_ptr.t;
  tail : counted_node_ptr.t;
  heap : gmap addr (cell T)
}.
Arguments mk_state {T} head tail heap.
Arguments head {T} s.
Arguments tail {T} s.
Arguments heap {T} s.

(** What an action did, as the log of an interleaved run records it: the
    action, without the payload of a value, and what it returned. *)
Inductive label :=
  | LSlotLoad (s : slot) (v : counted_node_ptr.t)
  | LSlotStore (s : slot) (desired : counted_node_ptr.t)
  | LSlotCAS (s : slot) (expected desired : counted_node_ptr.t)
      (r : bool * counted_node_ptr.t)
  | LSlotExchange (s : slot) (desired old : counted_node_ptr.t)
  | LNewNode (p : pointer)
  | LNewValue (p : pointer)
  | LDeleteNode (p : pointer)
  | LDeleteValue (p : pointer)
  | LReadValue (p : pointer)
  | LDataCAS (p : pointer) (expected desired : pointer) (r : bool * pointer)
  | LDataExchange (p : pointer) (desired old : pointer)
  | LCountLoad (p : pointer) (c : node_counter.t)
  | LCountCAS (p : pointer) (expected desired : node_counter.t)
      (r : bool * node_counter.t)
  | LNextLoad (p : pointer) (v : counted_node_ptr.t)
  | LNextStore (p : pointer) (v : counted_node_ptr.t).

(** The steps of one thread in a log. *)
Fixpoint thread_log (i : nat) (log : list (nat * label)) : list label :=
  match log with
  | [] => []
  | (j, l) :: log => if decide (i = j) then l :: thread_log i log else thread_log i log
  end.

(** C3 as stated, read on the steps of one thread: a release step that
    brings the internal count to zero is followed by the [delete] of the
    node. *)
Definition release_frees_at_zero (steps : list label) : Prop :=
  ∀ pre p c post,
    steps = pre ++ LCountCAS p c (release_ref_counter c) (true, c) :: post →
    node_counter.internal_count (release_ref_counter c) = 0 →
    ∃ post', post = LDeleteNode p :: post'.

(** C3 as amended, read on the steps of one thread.

    [release_settles p new rest]: after the compare-exchange of a release
    that stored the counter [new] in the node at [p], the next step of the
    thread, if it takes one, is the [delete] of the node exactly when both
    counts of [new] are zero. *)
Definition release_settles (p : pointer) (new : node_counter.t)
    (rest : list label) : Prop :=
  match rest with
  | [] => True
  | l :: _ =>
      l = LDeleteNode p ↔
      node_counter.internal_count new = 0 ∧ node_counter.external_count new = 0
  end.

(** The compare-exchange loop of a release of the node at [p], [c] being
    the counter the thread last observed: every attempt asks for [c] with
    one taken off the internal count, in its 30-bit field, and the holder
    count as it is; a failed attempt continues with the counter it
    observed. *)
Fixpoint release_loop (p : pointer) (c : node_counter.t) (rest : list label) : Prop :=
  match rest with
  | [] => True
  | LCountCAS q expected desired (ok, observed) :: rest =>
      q = p ∧ expected = c ∧
      desired = node_counter.mk
                  ((node_counter.internal_count c - 1) mod internal_modulus)
                  (node_counter.external_count c) ∧
      if ok : bool then release_settles p desired rest
      else release_loop p observed rest
  | _ :: _ => False
  end.

(** The release of the node at [p]: the load of its counter, then the loop. *)
Definition release_steps (p : pointer) (rest : list label) : Prop :=
  match rest with
  | [] => True
  | LCountLoad q c :: rest => q = p ∧ release_loop p c rest
  | _ :: _ => False
  end.

(** The rule on all the steps of a thread, [claimed] being the node of its
    last successful claim on [tail]: a data-install compare-exchange that
    fails is on the claimed node, and what the thread does next is the
    release of that node. *)
Fixpoint release_rule (claimed : pointer) (steps : list label) : Prop :=
  match steps with
  | [] => True
  | LSlotCAS Tail _ desired (true, _) :: rest =>
      release_rule (counted_node_ptr.ptr desired) rest
  | LDataCAS p _ _ (false, _) :: rest =>
      p = claimed ∧ release_steps p rest ∧ release_rule claimed rest
  | _ :: rest => release_rule claimed rest
  end.

(** Steps that are neither a claim on [tail] nor a data install. *)
Definition neutral (l : label) : Prop :=
  match l with
  | LSlotCAS Tail _ _ _ | LDataCAS _ _ _ _ => False
  | _ => True
  end.

(** Steps that do not begin with a [delete] of a node. *)
Definition starts_quietly (steps : list label) : Prop :=
  match steps with
  | LDeleteNode _ :: _ => False
  | _ => True
  end.

(** ** A concrete instance: a queue of [nat] in an empty heap *)

(** An allocator that never fails. *)
Definition first_fit (h : gmap addr (cell nat)) : option addr :=
  Some (fresh (dom h)).

(** An allocator that fails once [limit] cells are in use. *)
Definition bounded_fit (limit : nat) (h : gmap addr (cell nat)) : option addr :=
  if decide (size h < limit)%nat then first_fit h else None.

(** The memory before the constructor has run. *)
Definition no_queue : state nat :=
  mk_state (counted_node_ptr.mk 0 None) (counted_node_ptr.mk 0 None) ∅.

(** The memory after the constructor has run in [no_queue]. *)
Definition fresh_queue : state nat :=
  mk_state (counted_node_ptr.mk 1 (Some 1%positive))
           (counted_node_ptr.mk 1 (Some 1%positive))
           {[ 1%positive := CNode new_node ]}.

(** The memory after [push(7)] has completed in [fresh_queue]. *)
Definition one_value_queue : state nat :=
  mk_state (counted_node_ptr.mk 1 (Some 1%positive))
           (counted_node_ptr.mk 1 (Some 3%positive))
           (<[ 1%positive := CNode (node.mk (Some 2%positive) (node_counter.mk 0 1)
                                     (counted_node_ptr.mk 1 (Some 3%positive))) ]>
            (<[ 2%positive := CVal 7%nat ]>
             {[ 3%positive := CNode new_node ]})).

(** The memory once a producer of [7] has claimed the tail of
    [fresh_queue] and installed its value, and before it links the next
    node: the tail node holds a value. *)
Definition half_pushed_queue : state nat :=
  mk_state (counted_node_ptr.mk 1 (Some 1%positive))
           (counted_node_ptr.mk 2 (Some 1%positive))
           (<[ 1%positive := CNode (node.mk (Some 2%positive) (node_counter.mk 0 2)
                                     (counted_node_ptr.mk 0 None)) ]>
            (<[ 2%positive := CVal 7%nat ]>
             {[ 3%positive := CNode new_node ]})).

(** The steps that lead a lone producer from [fresh_queue] to
    [half_pushed_queue]: two allocations, the load and the claim of the
    tail, the install. *)
Definition half_push : list nat := [0; 0; 0; 0; 0]%nat.

(** A race of two producers, thread 0 pushing 1 and thread 1 pushing 2, on
    [fresh_queue].  Both claim the tail node; thread 0 installs its value,
    links and retires the tail slot; thread 1 then fails to install,
    releases its claim, and succeeds on the next node. *)
Definition race : list nat :=
  ([0; 0; 0; 0] ++ [1; 1; 1; 1] ++ [0; 0; 0; 0; 0] ++ repeat 1 10)%nat.

(** What thread 1 does in the race. *)
Definition race_steps_of_thread_1 : list label :=
  let slot_value e p := counted_node_ptr.mk e (Some p) in
  [ LNewValue (Some 4%positive);
    LNewNode (Some 5%positive);
    LSlotLoad Tail (slot_value 2 1%positive);
    LSlotCAS Tail (slot_value 2 1%positive) (slot_value 3 1%positive)
             (true, slot_value 2 1%positive);
    (* the install fails: the node holds the value at address 2 *)
    LDataCAS (Some 1%positive) None (Some 4%positive) (false, Some 2%positive);
    (* release_ref: the internal count goes from 1 to 0 *)
    LCountLoad (Some 1%positive) (node_counter.mk 1 1);
    LCountCAS (Some 1%positive) (node_counter.mk 1 1) (node_counter.mk 0 1)
              (true, node_counter.mk 1 1);
    (* no delete: the next attempt starts *)
    LSlotCAS Tail (slot_value 3 1%positive) (slot_value 4 1%positive)
             (false, slot_value 1 3%positive);
    LSlotCAS Tail (slot_value 1 3%positive) (slot_value 2 3%positive)
             (true, slot_value 1 3%positive);
    LDataCAS (Some 3%positive) None (Some 4%positive) (true, None);
    LNextStore (Some 3%positive) (slot_value 1 5%positive);
    LSlotExchange Tail (slot_value 1 5%positive) (slot_value 2 3%positive);
    LCountLoad (Some 3%positive) (node_counter.mk 0 2);
    LCountCAS (Some 3%positive) (node_counter.mk 0 2) (node_counter.mk 0 1)
              (true, node_counter.mk 0 2) ].

(** Two producers and a consumer on [fresh_queue]: thread 0 pushes 1,
    thread 1 pushes 2, thread 2 pops.  Thread 1 claims the tail node and is
    preempted; thread 0 pushes; the consumer advances [head] past the node;
    thread 1 then fails to install on it, the node holding the value of
    thread 0; the consumer takes the value and retires the head slot, which
    leaves the node with the counter (1, 0); thread 1 releases its claim,
    which brings the counter to (0, 0), deletes the node, and pushes on the
    next node. *)
Definition freeing : list nat :=
  ([1; 1; 1; 1] ++ repeat 0 9 ++ repeat 2 5 ++ [1] ++ repeat 2 5 ++ repeat 1 10)%nat.

(** What thread 1 does under [freeing]. *)
Definition freeing_steps_of_thread_1 : list label :=
  let slot_value e p := counted_node_ptr.mk e (Some p) in
  [ LNewValue (Some 2%positive);
    LNewNode (Some 3%positive);
    LSlotLoad Tail (slot_value 1 1%positive);
    LSlotCAS Tail (slot_value 1 1%positive) (slot_value 2 1%positive)
             (true, slot_value 1 1%positive);
    (* the install fails: the node holds the value at address 4 *)
    LDataCAS (Some 1%positive) None (Some 2%positive) (false, Some 4%positive);
    (* release_ref: the internal count goes from 1 to 0, no holder is left *)
    LCountLoad (Some 1%positive) (node_counter.mk 1 0);
    LCountCAS (Some 1%positive) (node_counter.mk 1 0) (node_counter.mk 0 0)
              (true, node_counter.mk 1 0);
    LDeleteNode (Some 1%positive);
    (* the next attempt *)
    LSlotCAS Tail (slot_value 2 1%positive) (slot_value 3 1%positive)
             (false, slot_value 1 5%positive);
    LSlotCAS Tail (slot_value 1 5%positive) (slot_value 2 5%positive)
             (true, slot_value 1 5%positive);
    LDataCAS (Some 5%positive) None (Some 2%positive) (true, None);
    LNextStore (Some 5%positive) (slot_value 1 3%positive);
    LSlotExchange Tail (slot_value 1 3%positive) (slot_value 2 5%positive);
    LCountLoad (Some 5%positive) (node_counter.mk 0 2);
    LCountCAS (Some 5%positive) (node_counter.mk 0 2) (node_counter.mk 0 1)
              (true, node_counter.mk 0 2) ].

(** The same three threads under another schedule.  Thread 1 claims the
    tail node and is preempted; thread 0 pushes 1; the consumer pops 1,
    which resets the [data] of the node to null; thread 1 then installs its
    value on the node it claimed, which [head] has left behind, links its
    new node behind that node, and exchanges [tail]. *)
Definition lost_push : list nat :=
  ([1; 1; 1; 1] ++ repeat 0 9 ++ repeat 2 10 ++ repeat 1 5)%nat.

(** ** The values of the test driver (main.cpp)

    Producer [p] of [test_multiple_producers_consumers] computes
    [int start = p * items_per_producer] and pushes [start + i] for
    [i = 0, ..., items_per_producer - 1], in this order. *)
Definition producer_values (items_per_producer p : Z) : list Z :=
  let start := to_int (p * items_per_producer) in
  (λ i, to_int (start + i)) <$> seqZ 0 items_per_producer.

(** The values of producers [0, ..., num_producers - 1], producer by producer. *)
Definition all_producer_values (num_producers items_per_producer : Z) : list Z :=
  concat (producer_values items_per_producer <$> seqZ 0 num_producers).

(** [TestResults]: the two members the verification reads. *)
Module TestResults.
Record t := mk { successful_pops : Z; popped_values : gset Z }.
End TestResults.

(** [TestResults results;]: the counter starts at 0 and the set is empty. *)
Definition new_results : TestResults.t := TestResults.mk 0 ∅.

(** [TestResults::record_pop]: [popped_values.insert(value)]. *)
Definition record_pop (value : Z) (results : TestResults.t) : TestResults.t :=
  TestResults.mk (TestResults.successful_pops results)
                 ({[ value ]} ∪ TestResults.popped_values results).

(** What a consumer does with a value it popped:
    [results.record_pop( *result ); results.successful_pops.fetch_add(1);]. *)
Definition successful_pop (value : Z) (results : TestResults.t) : TestResults.t :=
  let results := record_pop value results in
  TestResults.mk (to_int (TestResults.successful_pops results + 1))
                 (TestResults.popped_values results).

(** The results once the consumers have popped the values [popped], listed
    in the order in which they were recorded. *)
Definition consumed (popped : list Z) : TestResults.t :=
  foldl (λ results value, successful_pop value results) new_results popped.

(** The two assertions that end the test.  In the second one the [int] is
    converted to the type of [size()], a 64-bit unsigned integer. *)
Definition verification (total_items : Z) (results : TestResults.t) : bool :=
  (TestResults.successful_pops results =? total_items)
  && (Z.of_nat (size (TestResults.popped_values results)) =? total_items mod 2 ^ 64).

Section Queue.

(** The element type. *)
Context {T : Type}.

(** The allocator: given the current heap, [new] either fails ([None],
    [std::bad_alloc]) or returns an address.  The theorems assume that the
    address is not in use. *)
Variable alloc : gmap addr (cell T) → option addr.

(** ** Atomic actions *)

Inductive action : Type → Type :=
  (* std::atomic<counted_node_ptr>: head and tail *)
  | SlotLoad (s : slot) : action counted_node_ptr.t
  | SlotStore (s : slot) (desired : counted_node_ptr.t) : action unit
  | SlotCAS (s : slot) (expected desired : counted_node_ptr.t)
      : action (bool * counted_node_ptr.t)
  | SlotExchange (s : slot) (desired : counted_node_ptr.t) : action counted_node_ptr.t
  (* new / delete / dereference *)
  | NewNode : action pointer
  | NewValue (v : T) : action pointer
  | DeleteNode (p : pointer) : action unit
  | DeleteValue (p : pointer) : action unit
  | ReadValue (p : pointer) : action T
  (* node members *)
  | DataCAS (p : pointer) (expected desired : pointer) : action (bool * pointer)
  | DataExchange (p : pointer) (desired : pointer) : action pointer
  | CountLoad (p : pointer) : action node_counter.t
  | CountCAS (p : pointer) (expected desired : node_counter.t)
      : action (bool * node_counter.t)
  | NextLoad (p : pointer) : action counted_node_ptr.t
  | NextStore (p : pointer) (v : counted_node_ptr.t) : action unit.

Definition get_slot (s : slot) (σ : state T) : counted_node_ptr.t :=
  match s with Head => head σ | Tail => tail σ end.

Definition set_slot (s : slot) (v : counted_node_ptr.t) (σ : state T) : state T :=
  match s with
  | Head => mk_state v (tail σ) (heap σ)
  | Tail => mk_state (head σ) v (heap σ)
  end.

Definition set_heap (h : gmap addr (cell T)) (σ : state T) : state T :=
  mk_state (head σ) (tail σ) h.

(** Dereference of a [node*]: defined only on the address of a live node. *)
Definition get_node (p : pointer) (σ : state T) : option (addr * node.t) :=
  match p with
  | None => None
  | Some a => match heap σ !! a with
              | Some (CNode n) => Some (a, n)
              | _ => None
              end
  end.

Definition put_node (a : addr) (n : node.t) (σ : state T) : state T :=
  set_heap (<[a := CNode n]> (heap σ)) σ.

Definition get_value (p : pointer) (σ : state T) : option (addr * T) :=
  match p with
  | None => None
  | Some a => match heap σ !! a with
              | Some (CVal v) => Some (a, v)
              | _ => None
              end
  end.

(** One action on the shared state: [None] is undefined behaviour.
    A compare-exchange returns its verdict together with the value left
    in [expected] (the observed value on failure). *)
Definition do_action {B} (act : action B) (σ : state T) : option (B * state T) :=
  match act in action B return option (B * state T) with
  | SlotLoad s => Some (get_slot s σ, σ)
  | SlotStore s d => Some (tt, set_slot s d σ)
  | SlotCAS s e d =>
      if decide (get_slot s σ = e) then Some ((true, e), set_slot s d σ)
      else Some ((false, get_slot s σ), σ)
  | SlotExchange s d => Some (get_slot s σ, set_slot s d σ)
  | NewNode =>
      match alloc (heap σ) with
      | None => Some (None, σ)
      | Some a => Some (Some a, put_node a new_node σ)
      end
  | NewValue v =>
      match alloc (heap σ) with
      | None => Some (None, σ)
      | Some a => Some (Some a, set_heap (<[a := CVal v]> (heap σ)) σ)
      end
  | DeleteNode p =>
      match p with
      | None => Some (tt, σ)
      | Some _ => '(a, _) ← get_node p σ; Some (tt, set_heap (delete a (heap σ)) σ)
      end
  | DeleteValue p =>
      match p with
      | None => Some (tt, σ)
      | Some _ => '(a, _) ← get_value p σ; Some (tt, set_heap (delete a (heap σ)) σ)
      end
  | ReadValue p => '(_, v) ← get_value p σ; Some (v, σ)
  | DataCAS p e d =>
      '(a, n) ← get_node p σ;
      if decide (node.data n = e)
      then Some ((true, e), put_node a (node.mk d (node.count n) (node.next n)) σ)
      else Some ((false, node.data n), σ)
  | DataExchange p d =>
      '(a, n) ← get_node p σ;
      Some (node.data n, put_node a (node.mk d (node.count n) (node.next n)) σ)
  | CountLoad p => '(_, n) ← get_node p σ; Some (node.count n, σ)
  | CountCAS p e d =>
      '(a, n) ← get_node p σ;
      if decide (node.count n = e)
      then Some ((true, e), put_node a (node.mk (node.data n) d (node.next n)) σ)
      else Some ((false, node.count n), σ)
  | NextLoad p => '(_, n) ← get_node p σ; Some (node.next n, σ)
  | NextStore p v =>
      '(a, n) ← get_node p σ;
      Some (tt, put_node a (node.mk (node.data n) (node.count n) v) σ)
  end.

(** ** Programs *)

Inductive prog (A : Type) : Type :=
  | Ret (a : A)
  | Throw (f : fault)
  | Act {B : Type} (act : action B) (k : B → prog A).
Arguments Ret {A} a.
Arguments Throw {A} f.
Arguments Act {A B} act k.

Fixpoint bind {A B} (p : prog A) (f : A → prog B) : prog B :=
  match p with
  | Ret a => f a
  | Throw e => Throw e
  | Act act k => Act act (λ b, bind (k b) f)
  end.

Definition perform {B} (act : action B) : prog B := Act act Ret.

Notation "'let*' x ':=' p 'in' q" := (bind p (λ x, q))
  (at level 10, x pattern, p at level 100, q at level 200, only parsing).

(** A loop of the source, bounded by [fuel] iterations: the body either
    continues with a new loop state ([inl]) or leaves with a result. *)
Fixpoint loop {S R} (fuel : nat) (body : S → prog (S + R)) (s : S) : prog R :=
  match fuel with
  | O => Throw out_of_fuel
  | Datatypes.S n =>
      let* r := body s in
      match r with
      | inl s' => loop n body s'
      | inr r => Ret r
      end
  end.

(** Execution by one thread alone. *)
Fixpoint run {A} (p : prog A) (σ : state T) : result A * state T :=
  match p with
  | Ret a => (Done a, σ)
  | Throw f => (Aborted f, σ)
  | Act act k =>
      match do_action act σ with
      | Some (b, σ') => run (k b) σ'
      | None => (Aborted undefined_behaviour, σ)
      end
  end.

(** ** The member functions *)

Section Code.
Variable fuel : nat.

(** One iteration of the [do ... while] of [increase_external_count]: on
    success it leaves with the final [old_counter], which the source
    updates through the reference; on failure it continues with the
    observed value. *)
Definition increase_external_count_try (counter : slot)
    (old_counter : counted_node_ptr.t)
    : prog (counted_node_ptr.t + counted_node_ptr.t) :=
  let new_counter :=
    counted_node_ptr.mk (to_int (counted_node_ptr.external_count old_counter + 1))
                        (counted_node_ptr.ptr old_counter) in
  let* (ok, old_counter) := perform (SlotCAS counter old_counter new_counter) in
  if ok : bool
  then Ret (inr (counted_node_ptr.mk
                   (counted_node_ptr.external_count new_counter)
                   (counted_node_ptr.ptr old_counter)))
  else Ret (inl old_counter).

(** [increase_external_count(counter, old_counter)]; returns the final
    [old_counter]. *)
Definition increase_external_count (counter : slot)
    (old_counter : counted_node_ptr.t) : prog counted_node_ptr.t :=
  loop fuel (increase_external_count_try counter) old_counter.

(** One iteration of the [do ... while] of [release_ref]; on success it
    leaves with [new_counter]. *)
Definition release_ref_try (this : pointer) (old_counter : node_counter.t)
    : prog (node_counter.t + node_counter.t) :=
  let new_counter := release_ref_counter old_counter in
  let* (ok, old_counter) := perform (CountCAS this old_counter new_counter) in
  if ok : bool then Ret (inr new_counter) else Ret (inl old_counter).

(** [node::release_ref()] on the node at [this]. *)
Definition release_ref (this : pointer) : prog unit :=
  let* old_counter := perform (CountLoad this) in
  let* new_counter := loop fuel (release_ref_try this) old_counter in
  if counter_is_zero new_counter then perform (DeleteNode this) else Ret tt.

(** One iteration of the [do ... while] of [free_external_counter]. *)
Definition free_external_counter_try (ptr : pointer) (count_increase : Z)
    (old_counter : node_counter.t) : prog (node_counter.t + node_counter.t) :=
  let new_counter := free_external_counter_counter old_counter count_increase in
  let* (ok, old_counter) := perform (CountCAS ptr old_counter new_counter) in
  if ok : bool then Ret (inr new_counter) else Ret (inl old_counter).

(** [free_external_counter(old_node_ptr)] *)
Definition free_external_counter (old_node_ptr : counted_node_ptr.t) : prog unit :=
  let ptr := counted_node_ptr.ptr old_node_ptr in
  let count_increase := to_int (counted_node_ptr.external_count old_node_ptr - 2) in
  let* old_counter := perform (CountLoad ptr) in
  let* new_counter := loop fuel (free_external_counter_try ptr count_increase) old_counter in
  if counter_is_zero new_counter then perform (DeleteNode ptr) else Ret tt.

(** The constructor. *)
Definition lock_free_queue : prog unit :=
  let* dummy := perform NewNode in
  match dummy with
  | None => Throw bad_alloc
  | Some _ =>
      let dummy_ptr := counted_node_ptr.mk 1 dummy in
      let* _ := perform (SlotStore Head dummy_ptr) in
      perform (SlotStore Tail dummy_ptr)
  end.

(** One iteration of the [for (;;)] of [push]. *)
Definition push_attempt (new_data : pointer) (new_next : counted_node_ptr.t)
    (old_tail : counted_node_ptr.t) : prog (counted_node_ptr.t + unit) :=
  let* old_tail := increase_external_count Tail old_tail in
  let* (installed, _) := perform (DataCAS (counted_node_ptr.ptr old_tail) None new_data) in
  if installed : bool then
    let* _ := perform (NextStore (counted_node_ptr.ptr old_tail) new_next) in
    let* old_tail := perform (SlotExchange Tail new_next) in
    let* _ := free_external_counter old_tail in
    Ret (inr tt)
  else
    let* _ := release_ref (counted_node_ptr.ptr old_tail) in
    Ret (inl old_tail).

(** [push(new_value)].  When [new node] throws, the [unique_ptr] holding
    the copy of the value is destroyed during unwinding. *)
Definition push (new_value : T) : prog unit :=
  let* new_data := perform (NewValue new_value) in
  match new_data with
  | None => Throw bad_alloc
  | Some _ =>
      let* node_ptr := perform NewNode in
      match node_ptr with
      | None => let* _ := perform (DeleteValue new_data) in Throw bad_alloc
      | Some _ =>
          let new_next := counted_node_ptr.mk 1 node_ptr in
          let* old_tail := perform (SlotLoad Tail) in
          loop fuel (push_attempt new_data new_next) old_tail
      end
  end.

(** One iteration of the [for (;;)] of [pop]. *)
Definition pop_attempt (old_head : counted_node_ptr.t)
    : prog (counted_node_ptr.t + pointer) :=
  let* old_head := increase_external_count Head old_head in
  let ptr := counted_node_ptr.ptr old_head in
  let* t := perform (SlotLoad Tail) in
  if decide (ptr = counted_node_ptr.ptr t) then
    let* _ := release_ref ptr in
    Ret (inr None)
  else
    let* nxt := perform (NextLoad ptr) in
    let* (advanced, old_head') := perform (SlotCAS Head old_head nxt) in
    if advanced : bool then
      let* res := perform (DataExchange ptr None) in
      let* _ := free_external_counter old_head' in
      Ret (inr res)
    else
      let* _ := release_ref ptr in
      Ret (inl old_head').

(** [pop()]: the returned pointer is the [unique_ptr<T>] handed to the caller. *)
Definition pop : prog pointer :=
  let* old_head := perform (SlotLoad Head) in
  loop fuel pop_attempt old_head.

(** The loop of the destructor, [while (pop()) {}]: the [unique_ptr] each
    [pop] returns dies at the end of the condition. *)
Definition drain_step (_ : unit) : prog (unit + unit) :=
  let* r := pop in
  match r with
  | Some _ => let* _ := perform (DeleteValue r) in Ret (inl tt)
  | None => Ret (inr tt)
  end.

Definition drain : prog unit := loop fuel drain_step tt.

(** The destructor: after the loop, the node left at [head] is deleted. *)
Definition lock_free_queue_destructor : prog unit :=
  let* _ := drain in
  let* front := perform (SlotLoad Head) in
  perform (DeleteNode (counted_node_ptr.ptr front)).

(** The consumer of the test driver: [auto result = queue.pop();
    if (result) record_pop( *result );], the [unique_ptr] dying with its scope. *)
Definition consume : prog (option T) :=
  let* r := pop in
  match r with
  | None => Ret None
  | Some _ =>
      let* v := perform (ReadValue r) in
      let* _ := perform (DeleteValue r) in
      Ret (Some v)
  end.

(** ** A sequential client

    A single thread that issues pushes and pops one after the other.  A
    push that throws [std::bad_alloc] is caught and recorded; a pop is the
    consumer's. *)

Fixpoint catch_bad_alloc {A} (p : prog A) : prog (option A) :=
  match p with
  | Ret a => Ret (Some a)
  | Throw bad_alloc => Ret None
  | Throw f => Throw f
  | Act act k => Act act (λ b, catch_bad_alloc (k b))
  end.

Inductive op :=
  | Push (v : T)
  | Pop.

Inductive obs :=
  | Pushed (v : T)
  | PushFailed (v : T)
  | Popped (r : option T).

Definition perform_op (o : op) : prog obs :=
  match o with
  | Push v =>
      let* r := catch_bad_alloc (push v) in
      Ret (match r with Some _ => Pushed v | None => PushFailed v end)
  | Pop =>
      let* r := consume in
      Ret (Popped r)
  end.

Fixpoint client (ops : list op) : prog (list obs) :=
  match ops with
  | [] => Ret []
  | o :: rest =>
      let* e := perform_op o in
      let* es := client rest in
      Ret (e :: es)
  end.

End Code.

(** The values whose push completed, and the values the pops returned,
    each in program order. *)
Fixpoint pushed_values (tr : list obs) : list T :=
  match tr with
  | [] => []
  | Pushed v :: tr => v :: pushed_values tr
  | _ :: tr => pushed_values tr
  end.

Fixpoint popped_values (tr : list obs) : list T :=
  match tr with
  | [] => []
  | Popped (Some v) :: tr => v :: popped_values tr
  | _ :: tr => popped_values tr
  end.

(** ** The sequential specification

    A first-in first-out queue, as the specification has it, read on the
    answers of a history: from the queue [q], a completed push appends its
    value, a push that threw changes nothing, and a pop answers the front of
    the queue and removes it, or answers null when the queue is empty;
    [q'] is the queue the history leaves. *)
Fixpoint fifo_spec (tr : list obs) (q q' : list T) : Prop :=
  match tr with
  | [] => q' = q
  | Pushed v :: tr => fifo_spec tr (q ++ [v]) q'
  | PushFailed _ :: tr => fifo_spec tr q q'
  | Popped r :: tr => r = hd_error q ∧ fifo_spec tr (List.tl q) q'
  end.

(** The answers of a first-in first-out queue [q] to the operations [ops]
    when no push throws. *)
Fixpoint fifo_answers (ops : list op) (q : list T) : list obs :=
  match ops with
  | [] => []
  | Push v :: ops => Pushed v :: fifo_answers ops (q ++ [v])
  | Pop :: ops => Popped (hd_error q) :: fifo_answers ops (List.tl q)
  end.

(** An answer to the operation [o]: a push of [v] completes or throws, a
    pop returns. *)
Definition answers (o : op) (e : obs) : Prop :=
  match o with
  | Push v => e = Pushed v ∨ e = PushFailed v
  | Pop => ∃ r, e = Popped r
  end.

(** The two allocations of [push(v)] succeed in the state [σ]. *)
Definition push_allocates (v : T) (σ : state T) : Prop :=
  ∃ a nn, alloc (heap σ) = Some a ∧ alloc (<[a := CVal v]> (heap σ)) = Some nn.

(** ** Interleaved execution

    One tick of the schedule lets one thread of the pool perform its next
    action; the log records who did what and what the action returned. *)

Definition label_of {B} (act : action B) : B → label :=
  match act in action B return B → label with
  | SlotLoad s => λ v, LSlotLoad s v
  | SlotStore s d => λ _, LSlotStore s d
  | SlotCAS s e d => λ r, LSlotCAS s e d r
  | SlotExchange s d => λ old, LSlotExchange s d old
  | NewNode => λ p, LNewNode p
  | NewValue _ => λ p, LNewValue p
  | DeleteNode p => λ _, LDeleteNode p
  | DeleteValue p => λ _, LDeleteValue p
  | ReadValue p => λ _, LReadValue p
  | DataCAS p e d => λ r, LDataCAS p e d r
  | DataExchange p d => λ old, LDataExchange p d old
  | CountLoad p => λ c, LCountLoad p c
  | CountCAS p e d => λ r, LCountCAS p e d r
  | NextLoad p => λ v, LNextLoad p v
  | NextStore p v => λ _, LNextStore p v
  end.

Definition step {A} (p : prog A) (σ : state T) : option (label * prog A * state T) :=
  match p with
  | Act act k =>
      match do_action act σ with
      | Some (b, σ') => Some (label_of act b, k b, σ')
      | None => None
      end
  | _ => None
  end.

Fixpoint interleave {A} (schedule : list nat) (pool : list (prog A)) (σ : state T)
    : option (list (nat * label) * list (prog A) * state T) :=
  match schedule with
  | [] => Some ([], pool, σ)
  | i :: schedule =>
      p ← pool !! i;
      '(l, p', σ') ← step p σ;
      '(log, pool', σ'') ← interleave schedule (<[i := p']> pool) σ';
      Some ((i, l) :: log, pool', σ'')
  end.

(** ** The steps of one thread

    [trace p steps r]: a thread that runs [p] can take the steps [steps],
    each action answering as it does in some state of the memory, whatever
    the other threads do in between; [r] is how the thread then stands:
    returned, thrown, or not finished ([None]). *)
Fixpoint trace {A} (p : prog A) (steps : list label) (r : option (result A)) : Prop :=
  match p with
  | Ret a => steps = [] ∧ r = Some (Done a)
  | Throw f => steps = [] ∧ r = Some (Aborted f)
  | Act act k =>
      (steps = [] ∧ r = None) ∨
      ∃ b rest σ σ',
        do_action act σ = Some (b, σ') ∧
        steps = label_of act b :: rest ∧
        trace (k b) rest r
  end.

(** Programs without a claim on [tail] and without a data install. *)
Definition quiet_action {B} (act : action B) : Prop :=
  match act with
  | SlotCAS Tail _ _ | DataCAS _ _ _ => False
  | _ => True
  end.

Fixpoint quiet {A} (p : prog A) : Prop :=
  match p with
  | Act act k => quiet_action act ∧ ∀ b, quiet (k b)
  | _ => True
  end.

(** Programs that do not throw [std::bad_alloc]. *)
Fixpoint no_bad_alloc {A} (p : prog A) : Prop :=
  match p with
  | Ret _ => True
  | Throw f => f ≠ bad_alloc
  | Act _ k => ∀ b, no_bad_alloc (k b)
  end.

(** A program every run of which follows the release rule, from any
    claimed node, and can be followed by any steps that do. *)
Definition obeys {A} (p : prog A) : Prop :=
  ∀ steps r claimed, trace p steps r →
    match r with
    | Some (Done _) =>
        ∀ rest, (∀ c, release_rule c rest) → release_rule claimed (steps ++ rest)
    | _ => release_rule claimed steps
    end.

(** ** The shape of a quiescent queue

    [items] lists, from the head, the address of each value, the value and
    the address of the next node.  A queue that holds [items] is a chain of
    nodes from [head] to the dummy at [tail]; the head node has seen [k]
    pops that found the queue empty.  [frame] is the rest of the heap. *)

Definition full_node (a : addr) (internal : Z) (n : addr) : cell T :=
  CNode (node.mk (Some a) (node_counter.mk internal 1)
                 (counted_node_ptr.mk 1 (Some n))).

Definition dummy_node (internal : Z) : cell T :=
  CNode (node.mk None (node_counter.mk internal 2) (counted_node_ptr.mk 0 None)).

Fixpoint chain (h : gmap addr (cell T)) (p : addr) (internal : Z)
    (items : list (addr * T * addr)) (tp : addr) : Prop :=
  match items with
  | [] => p = tp ∧ h !! tp = Some (dummy_node internal)
  | (a, v, n) :: items =>
      h !! p = Some (full_node a internal n) ∧
      h !! a = Some (CVal v) ∧
      chain h n 0 items tp
  end.

Fixpoint footprint (p : addr) (items : list (addr * T * addr)) : list addr :=
  match items with
  | [] => [p]
  | (a, _, n) :: items => p :: a :: footprint n items
  end.

Definition contents (items : list (addr * T * addr)) : list T :=
  map (λ i, i.1.2) items.

Record shape (frame : gmap addr (cell T)) (σ : state T) (k : Z)
    (hp : addr) (items : list (addr * T * addr)) (tp : addr) : Prop := {
  shape_head : head σ = counted_node_ptr.mk (to_int (1 + k)) (Some hp);
  shape_tail : tail σ = counted_node_ptr.mk 1 (Some tp);
  shape_chain : chain (heap σ) hp (to_internal (- k)) items tp;
  shape_nodup : NoDup (footprint hp items);
  shape_frame : ∀ x, x ∉ footprint hp items → heap σ !! x = frame !! x;
  shape_disjoint : ∀ x, x ∈ footprint hp items → frame !! x = None
}.

(** The counter the dummy at the tail carries. *)
Definition tail_internal (c : Z) (items : list (addr * T * addr)) : Z :=
  match items with [] => c | _ => 0 end.

(** The state [release_ref] and [free_external_counter] leave behind once
    the counter of the node at [a] has become [c]. *)
Definition settle (a : addr) (nd : node.t) (c : node_counter.t) (σ : state T) : state T :=
  if counter_is_zero c then set_heap (delete a (heap σ)) σ
  else put_node a (node.mk (node.data nd) c (node.next nd)) σ.

(** ** Theory *)

Hypothesis alloc_fresh : ∀ h a, alloc h = Some a → h !! a = None.

(** ** Execution lemmas *)

Lemma run_bind {A B} (p : prog A) (f : A → prog B) σ :
  run (bind p f) σ =
  match run p σ with
  | (Done a, σ') => run (f a) σ'
  | (Aborted e, σ') => (Aborted e, σ')
  end.
Proof.
  revert σ. induction p as [a|e|C act k IH]; intros σ; simpl; try reflexivity.
  destruct (do_action act σ) as [[b σ']|]; [apply IH | reflexivity].
Qed.

Lemma run_perform {B} (act : action B) σ :
  run (perform act) σ =
  match do_action act σ with
  | Some (b, σ') => (Done b, σ')
  | None => (Aborted undefined_behaviour, σ)
  end.
Proof. simpl. destruct (do_action act σ) as [[b σ']|]; reflexivity. Qed.

Lemma run_catch_bad_alloc {A} (p : prog A) σ :
  run (catch_bad_alloc p) σ =
  match run p σ with
  | (Done a, σ') => (Done (Some a), σ')
  | (Aborted bad_alloc, σ') => (Done None, σ')
  | (Aborted f, σ') => (Aborted f, σ')
  end.
Proof.
  revert σ. induction p as [a|e|C act k IH]; intros σ; simpl.
  - reflexivity.
  - destruct e; reflexivity.
  - destruct (do_action act σ) as [[b σ']|]; [apply IH | reflexivity].
Qed.

Lemma run_ret {A} (a : A) σ : run (Ret a) σ = (Done a, σ).
Proof. reflexivity. Qed.

Lemma run_throw {A} f σ : run (Throw f : prog A) σ = (Aborted f, σ).
Proof. reflexivity. Qed.

Lemma loop_S {S R} n (body : S → prog (S + R)) s :
  loop (Datatypes.S n) body s =
  bind (body s) (λ r, match r with inl s' => loop n body s' | inr r => Ret r end).
Proof. reflexivity. Qed.

#[local] Arguments bind : simpl never.
#[local] Arguments perform : simpl never.
#[local] Arguments loop : simpl never.
#[local] Arguments run : simpl never.
#[local] Arguments increase_external_count : simpl never.
#[local] Arguments increase_external_count_try : simpl never.
#[local] Arguments release_ref_try : simpl never.
#[local] Arguments free_external_counter_try : simpl never.
#[local] Arguments release_ref : simpl never.
#[local] Arguments free_external_counter : simpl never.
#[local] Arguments push : simpl never.
#[local] Arguments pop : simpl never.
#[local] Arguments consume : simpl never.
#[local] Arguments drain : simpl never.
#[local] Arguments client : simpl never.
#[local] Arguments to_internal : simpl never.
#[local] Arguments to_external : simpl never.
#[local] Arguments to_int : simpl never.

(** Symbolic execution of the next statements of a program. *)
Ltac exec :=
  repeat first
    [ rewrite run_bind
    | rewrite run_perform
    | rewrite run_ret
    | rewrite run_throw
    | rewrite loop_S ];
  cbn beta iota.

(** ** The helpers, run without interference *)

Lemma get_node_Some p a nd σ :
  get_node p σ = Some (a, nd) → p = Some a ∧ heap σ !! a = Some (CNode nd).
Proof.
  destruct p as [b|]; [|done]. simpl.
  destruct (heap σ !! b) as [[]|] eqn:E; naive_solver.
Qed.

Lemma get_node_lookup a nd σ :
  heap σ !! a = Some (CNode nd) → get_node (Some a) σ = Some (a, nd).
Proof. intros H. simpl. by rewrite H. Qed.

(** The compare-exchange loops, one iteration at a time and in any state:
    an iteration whose [old_counter] is current stores the update of the
    current value; a stale one changes nothing and reloads.  Interference
    between iterations is thus harmless. *)
Lemma increase_external_count_try_spec s old σ :
  run (increase_external_count_try s old) σ =
  if decide (get_slot s σ = old)
  then let c' := counted_node_ptr.mk (to_int (counted_node_ptr.external_count old + 1))
                                     (counted_node_ptr.ptr old) in
       (Done (inr c'), set_slot s c' σ)
  else (Done (inl (get_slot s σ)), σ).
Proof.
  unfold increase_external_count_try. exec. simpl.
  destruct (decide _); exec; reflexivity.
Qed.

Lemma release_ref_try_spec p old a nd σ :
  get_node p σ = Some (a, nd) →
  run (release_ref_try p old) σ =
  if decide (node.count nd = old)
  then (Done (inr (release_ref_counter old)),
        put_node a (node.mk (node.data nd) (release_ref_counter old) (node.next nd)) σ)
  else (Done (inl (node.count nd)), σ).
Proof.
  intros Hn. unfold release_ref_try. exec. simpl. rewrite Hn. simpl.
  destruct (decide _); exec; reflexivity.
Qed.

Lemma free_external_counter_try_spec p inc old a nd σ :
  get_node p σ = Some (a, nd) →
  run (free_external_counter_try p inc old) σ =
  if decide (node.count nd = old)
  then (Done (inr (free_external_counter_counter old inc)),
        put_node a (node.mk (node.data nd) (free_external_counter_counter old inc)
                            (node.next nd)) σ)
  else (Done (inl (node.count nd)), σ).
Proof.
  intros Hn. unfold free_external_counter_try. exec. simpl. rewrite Hn. simpl.
  destruct (decide _); exec; reflexivity.
Qed.

Lemma increase_external_count_spec n s c σ :
  get_slot s σ = c →
  let c' := counted_node_ptr.mk (to_int (counted_node_ptr.external_count c + 1))
                                (counted_node_ptr.ptr c) in
  run (increase_external_count (S n) s c) σ = (Done c', set_slot s c' σ).
Proof.
  intros Hs c'. unfold increase_external_count.
  exec. rewrite increase_external_count_try_spec, decide_True by done.
  exec. reflexivity.
Qed.

Lemma release_ref_spec n p a nd σ :
  get_node p σ = Some (a, nd) →
  run (release_ref (S n) p) σ =
  (Done tt, settle a nd (release_ref_counter (node.count nd)) σ).
Proof.
  intros Hn. destruct (get_node_Some _ _ _ _ Hn) as [-> Hl].
  unfold release_ref, settle.
  exec. simpl. rewrite Hl. simpl. exec.
  rewrite (release_ref_try_spec _ _ a nd) by done.
  rewrite decide_True by done. exec.
  destruct (counter_is_zero _); exec; [|reflexivity].
  simpl. rewrite lookup_insert_eq. simpl.
  by rewrite delete_insert_eq.
Qed.

Lemma free_external_counter_spec n c a nd σ :
  get_node (counted_node_ptr.ptr c) σ = Some (a, nd) →
  run (free_external_counter (S n) c) σ =
  (Done tt,
   settle a nd
     (free_external_counter_counter (node.count nd)
        (to_int (counted_node_ptr.external_count c - 2))) σ).
Proof.
  intros Hn. destruct (get_node_Some _ _ _ _ Hn) as [Hp Hl].
  unfold free_external_counter, settle. rewrite Hp in *.
  exec. simpl. rewrite Hl. simpl. exec.
  rewrite (free_external_counter_try_spec _ _ _ a nd) by done.
  rewrite decide_True by done. exec.
  destruct (counter_is_zero _); exec; [|reflexivity].
  simpl. rewrite lookup_insert_eq. simpl.
  by rewrite delete_insert_eq.
Qed.

(** ** Chains *)

Lemma chain_allocated h p c items tp x :
  chain h p c items tp → x ∈ footprint p items → is_Some (h !! x).
Proof.
  revert p c. induction items as [|[[a v] n] items IH]; simpl; intros p c.
  - intros [-> H] ->%list_elem_of_singleton. eauto.
  - intros (Hp & Ha & Hc) Hx. rewrite !elem_of_cons in Hx.
    destruct Hx as [->|[->|Hx]]; eauto.
Qed.

Lemma chain_tail_in h p c items tp :
  chain h p c items tp → tp ∈ footprint p items.
Proof.
  revert p c. induction items as [|[[a v] n] items IH]; simpl; intros p c.
  - intros [-> _]. by apply list_elem_of_singleton.
  - intros (_ & _ & Hc). rewrite !elem_of_cons. eauto.
Qed.

Lemma chain_tail h p c items tp :
  chain h p c items tp → h !! tp = Some (dummy_node (tail_internal c items)).
Proof.
  revert p c. induction items as [|[[a v] n] items IH]; simpl; intros p c.
  - by intros [_ ?].
  - intros (_ & _ & Hc). apply IH in Hc. by destruct items.
Qed.

Lemma chain_frame h h' p c items tp :
  chain h p c items tp →
  (∀ x, x ∈ footprint p items → h' !! x = h !! x) →
  chain h' p c items tp.
Proof.
  revert p c. induction items as [|[[a v] n] items IH]; simpl; intros p c.
  - intros [-> H] Hx. split; [done|]. rewrite Hx; [done|]. by apply list_elem_of_singleton.
  - intros (Hp & Ha & Hc) Hx. split_and!.
    + rewrite Hx; [done|]. rewrite !elem_of_cons; eauto.
    + rewrite Hx; [done|]. rewrite !elem_of_cons; eauto.
    + apply IH; [done|]. intros x Hin. apply Hx. rewrite !elem_of_cons; eauto.
Qed.

Lemma footprint_snoc p items a v n :
  footprint p (items ++ [(a, v, n)]) = footprint p items ++ [a; n].
Proof.
  revert p. induction items as [|[[a' v'] n'] items IH]; simpl; intros p.
  - reflexivity.
  - by rewrite IH.
Qed.

Lemma contents_snoc items a v n :
  contents (items ++ [(a, v, n)]) = contents items ++ [v].
Proof. unfold contents. by rewrite map_app. Qed.

(** Linking a value behind the old dummy. *)
Lemma chain_snoc h h' p c items tp a v n :
  chain h p c items tp →
  NoDup (footprint p items) →
  (∀ x, x ∈ footprint p items → x ≠ tp → h' !! x = h !! x) →
  h' !! tp = Some (full_node a (tail_internal c items) n) →
  h' !! a = Some (CVal v) →
  h' !! n = Some (dummy_node 0) →
  chain h' p c (items ++ [(a, v, n)]) n.
Proof.
  revert p c. induction items as [|[[a' v'] n'] items IH]; simpl; intros p c.
  - intros [-> _] _ _ Htp Ha Hn. done.
  - intros (Hp & Ha' & Hc) Hnd Hx Htp Ha Hn.
    apply NoDup_cons in Hnd as [Hp1 Hnd]. apply NoDup_cons in Hnd as [Ha1 Hnd].
    pose proof (chain_tail_in _ _ _ _ _ Hc) as Hin.
    split_and!.
    + rewrite Hx; [done| |]; [rewrite !elem_of_cons; eauto|].
      intros ->. apply Hp1. rewrite elem_of_cons; eauto.
    + rewrite Hx; [done| |]; [rewrite !elem_of_cons; eauto|].
      intros ->. by apply Ha1.
    + apply IH; try done.
      * intros x Hxin. apply Hx. rewrite !elem_of_cons; eauto.
      * by destruct items.
Qed.

(** ** Wrap-around arithmetic *)

Ltac wrap_arith :=
  unfold to_int, to_internal, to_external, internal_modulus, external_modulus,
    INT_MIN, INT_MAX in *;
  Z.to_euclidean_division_equations; lia.

Lemma to_int_small z : INT_MIN ≤ z ≤ INT_MAX → to_int z = z.
Proof. wrap_arith. Qed.

Lemma to_int_range z : INT_MIN ≤ to_int z ≤ INT_MAX.
Proof. wrap_arith. Qed.

Lemma to_internal_range z : 0 ≤ to_internal z < internal_modulus.
Proof. wrap_arith. Qed.

Lemma to_external_range z : 0 ≤ to_external z < external_modulus.
Proof. wrap_arith. Qed.

Lemma to_internal_small z : 0 ≤ z < internal_modulus → to_internal z = z.
Proof. wrap_arith. Qed.

Lemma to_int_succ k : to_int (to_int (1 + k) + 1) = to_int (1 + (k + 1)).
Proof. wrap_arith. Qed.

(** One more claim released on a node that has seen [k]. *)
Lemma to_internal_pred k :
  to_internal (to_int (to_internal (- k) - 1)) = to_internal (- (k + 1)).
Proof. wrap_arith. Qed.

(** Retiring a slot that has seen [k] claims and their releases: the
    internal count returns to zero. *)
Lemma to_internal_cancel k :
  to_internal (to_int (to_internal (- k) + to_int (to_int (to_int (1 + k) + 1) - 2))) = 0.
Proof. wrap_arith. Qed.

Lemma to_internal_sum i e :
  to_internal (to_int (i + to_int (e - 2))) = (i + (e - 2)) mod internal_modulus.
Proof. wrap_arith. Qed.

Lemma to_internal_dec i :
  to_internal (to_int (i - 1)) = (i - 1) mod internal_modulus.
Proof. wrap_arith. Qed.

Lemma to_external_dec e :
  to_external (to_int (e - 1)) = (e - 1) mod external_modulus.
Proof. wrap_arith. Qed.

(** ** The operations on a quiescent queue *)

Lemma lock_free_queue_spec σ d :
  alloc (heap σ) = Some d →
  let σ' := mk_state (counted_node_ptr.mk 1 (Some d)) (counted_node_ptr.mk 1 (Some d))
                     (<[d := dummy_node 0]> (heap σ)) in
  run lock_free_queue σ = (Done tt, σ') ∧ shape (heap σ) σ' 0 d [] d.
Proof.
  intros Ha σ'. split.
  - unfold lock_free_queue. exec. simpl. rewrite Ha. exec. reflexivity.
  - pose proof (alloc_fresh _ _ Ha) as Hd.
    split; simpl; try done.
    + split; [done|]. by rewrite lookup_insert_eq.
    + apply NoDup_singleton.
    + intros x Hx. rewrite list_elem_of_singleton in Hx. by rewrite lookup_insert_ne.
    + by intros x ->%list_elem_of_singleton.
Qed.

Lemma lock_free_queue_bad_alloc σ :
  alloc (heap σ) = None → run lock_free_queue σ = (Aborted bad_alloc, σ).
Proof.
  intros Ha. unfold lock_free_queue. exec. simpl. rewrite Ha. exec. reflexivity.
Qed.

(** A push whose first allocation fails, in any state. *)
Lemma push_bad_alloc_value n v σ :
  alloc (heap σ) = None → run (push n v) σ = (Aborted bad_alloc, σ).
Proof.
  intros Ha. unfold push. exec. simpl. rewrite Ha. exec. reflexivity.
Qed.

(** A push whose second allocation fails, in any state. *)
Lemma push_bad_alloc_node n v σ a :
  alloc (heap σ) = Some a →
  alloc (<[a := CVal v]> (heap σ)) = None →
  run (push n v) σ = (Aborted bad_alloc, σ).
Proof.
  intros Ha Hn. pose proof (alloc_fresh _ _ Ha) as Hfresh.
  unfold push. exec. simpl. rewrite Ha. exec. simpl. rewrite Hn. exec.
  simpl. rewrite lookup_insert_eq. simpl. exec.
  rewrite delete_insert_id by done. by destruct σ.
Qed.

Lemma push_spec frame n v σ k hp items tp a nn :
  shape frame σ k hp items tp →
  alloc (heap σ) = Some a →
  alloc (<[a := CVal v]> (heap σ)) = Some nn →
  ∃ σ', run (push (S n) v) σ = (Done tt, σ') ∧
        shape frame σ' k hp (items ++ [(a, v, nn)]) nn.
Proof.
  intros [Hh Ht Hc Hnd Hfr Hdj] Ha Hn.
  destruct σ as [hd tl h]; simpl in *; subst hd tl.
  pose proof (alloc_fresh _ _ Ha) as Hfa.
  pose proof (alloc_fresh _ _ Hn) as Hfn.
  apply lookup_insert_None in Hfn as [Hfn Hne].
  pose proof (chain_tail _ _ _ _ _ Hc) as Htp.
  pose proof (chain_tail_in _ _ _ _ _ Hc) as Htin.
  assert (tp ≠ a) as Hta by (intros ->; congruence).
  assert (tp ≠ nn) as Htn by (intros ->; congruence).
  assert (∀ x, x ∈ footprint hp items → x ≠ a ∧ x ≠ nn) as Hold.
  { intros x Hx. destruct (chain_allocated _ _ _ _ _ x Hc Hx) as [y Hy].
    split; intros ->; congruence. }
  unfold push. exec. simpl. rewrite Ha. exec. simpl. rewrite Hn. exec. simpl.
  unfold push_attempt.
  exec. rewrite increase_external_count_spec by reflexivity.
  exec. simpl.
  rewrite lookup_insert_ne, lookup_insert_ne, Htp by done. simpl.
  exec. simpl.
  rewrite lookup_insert_eq. simpl. exec. simpl.
  pose proof (to_internal_range (- k)) as Hrange.
  assert (0 ≤ tail_internal (to_internal (- k)) items < internal_modulus) as Hti.
  { destruct items; simpl; [done|]. unfold internal_modulus. lia. }
  exec. erewrite free_external_counter_spec; cycle 1.
  { apply get_node_lookup. simpl. by rewrite lookup_insert_eq. }
  exec. eexists. split; [reflexivity|].
  unfold settle, free_external_counter_counter. simpl.
  change (to_int (to_int (1 + 1) - 2)) with 0.
  rewrite Z.add_0_r, to_int_small, to_internal_small
    by (unfold internal_modulus, INT_MIN, INT_MAX in *; lia).
  change (to_external (to_int (2 - 1))) with 1.
  unfold counter_is_zero. simpl. rewrite andb_false_r.
  split; simpl; try done.
  - eapply chain_snoc; try done.
    + intros x Hx Hxt. destruct (Hold x Hx).
      rewrite !lookup_insert_ne by done. reflexivity.
    + by rewrite lookup_insert_eq.
    + by rewrite !lookup_insert_ne, lookup_insert_eq by done.
    + by rewrite !lookup_insert_ne, lookup_insert_eq by done.
  - rewrite footprint_snoc. apply NoDup_app. split_and!; [done| |].
    + intros x Hx. destruct (Hold x Hx). rewrite !elem_of_cons, elem_of_nil. intuition.
    + apply NoDup_cons. split; [|apply NoDup_singleton].
      rewrite list_elem_of_singleton. congruence.
  - intros x Hx. rewrite footprint_snoc, elem_of_app, !elem_of_cons, elem_of_nil in Hx.
    rewrite !lookup_insert_ne by (intros ->; intuition). apply Hfr. intuition.
  - intros x Hx. rewrite footprint_snoc, elem_of_app, !elem_of_cons, elem_of_nil in Hx.
    destruct Hx as [Hx|[->|[->|[]]]]; [by apply Hdj| |].
    + rewrite <- Hfr; [done|]. intros Hin. by destruct (Hold _ Hin).
    + rewrite <- Hfr; [done|]. intros Hin. by destruct (Hold _ Hin).
Qed.

(** A pop that finds the queue empty: one more claim on the head slot,
    one released on the node. *)
Lemma pop_empty_spec frame n σ k hp tp :
  shape frame σ k hp [] tp →
  let σ' := mk_state (counted_node_ptr.mk (to_int (1 + (k + 1))) (Some hp)) (tail σ)
              (<[hp := dummy_node (to_internal (- (k + 1)))]> (heap σ)) in
  run (pop (S n)) σ = (Done None, σ') ∧ shape frame σ' (k + 1) hp [] tp.
Proof.
  intros [Hh Ht Hc Hnd Hfr Hdj] σ'.
  destruct σ as [hd tl h]; simpl in *; subst hd tl σ'.
  destruct Hc as [-> Hl]. split.
  - unfold pop, pop_attempt. exec. simpl.
    exec. rewrite increase_external_count_spec by reflexivity.
    exec. simpl. rewrite decide_True by done.
    exec. erewrite release_ref_spec; cycle 1.
    { apply get_node_lookup. simpl. exact Hl. }
    exec. unfold settle, release_ref_counter, counter_is_zero. simpl.
    rewrite andb_false_r, to_internal_pred, to_int_succ. reflexivity.
  - split; simpl; try done.
    + split; [done|]. by rewrite lookup_insert_eq.
    + intros x Hx. rewrite lookup_insert_ne; [by apply Hfr|].
      intros ->. apply Hx. by apply list_elem_of_singleton.
Qed.

(** A pop that finds a value: the head node is unlinked and freed, the
    value cell is handed to the caller (it joins the frame). *)
Lemma pop_spec frame n σ k hp a v nx items tp :
  shape frame σ k hp ((a, v, nx) :: items) tp →
  let σ' := mk_state (counted_node_ptr.mk 1 (Some nx)) (tail σ)
              (delete hp (heap σ)) in
  run (pop (S n)) σ = (Done (Some a), σ') ∧
  shape (<[a := CVal v]> frame) σ' 0 nx items tp.
Proof.
  intros [Hh Ht Hc Hnd Hfr Hdj] σ'.
  destruct σ as [hd tl h]; simpl in *; subst hd tl σ'.
  destruct Hc as (Hp & Ha & Hc).
  apply NoDup_cons in Hnd as [Hp1 Hnd]. apply NoDup_cons in Hnd as [Ha1 Hnd].
  pose proof (chain_tail_in _ _ _ _ _ Hc) as Htin.
  assert (hp ≠ tp) as Hne.
  { intros ->. apply Hp1. rewrite elem_of_cons. eauto. }
  assert (hp ≠ a) as Hpa.
  { intros ->. apply Hp1. rewrite elem_of_cons. eauto. }
  split.
  - unfold pop, pop_attempt. exec. simpl.
    exec. rewrite increase_external_count_spec by reflexivity.
    exec. simpl. rewrite decide_False by congruence.
    exec. simpl. rewrite Hp. simpl.
    exec. simpl. rewrite decide_True by done.
    exec. simpl. rewrite Hp. simpl.
    exec. erewrite free_external_counter_spec; cycle 1.
    { apply get_node_lookup. simpl. by rewrite lookup_insert_eq. }
    exec. unfold settle, free_external_counter_counter, counter_is_zero. simpl.
    rewrite to_internal_cancel. change (to_external (to_int (1 - 1))) with 0. simpl.
    unfold set_heap. simpl. by rewrite delete_insert_eq.
  - split; simpl; try done.
    + change (to_internal (- 0)) with 0.
      eapply chain_frame; [done|]. intros x Hx.
      apply lookup_delete_ne. intros ->. apply Hp1. rewrite elem_of_cons. eauto.
    + intros x Hx. destruct (decide (x = hp)) as [->|Hxp].
      * rewrite lookup_delete_eq, lookup_insert_ne by done.
        symmetry. apply Hdj. rewrite elem_of_cons. eauto.
      * rewrite lookup_delete_ne by done.
        destruct (decide (x = a)) as [->|Hxa].
        -- by rewrite lookup_insert_eq.
        -- rewrite lookup_insert_ne by done. apply Hfr.
           rewrite !elem_of_cons. intuition.
    + intros x Hx. rewrite lookup_insert_ne by (intros ->; done).
      apply Hdj. rewrite !elem_of_cons. eauto.
Qed.

(** Destroying the [unique_ptr] a pop returned gives the cell back. *)
Lemma shape_delete_value frame σ k hp items tp a c :
  shape (<[a := c]> frame) σ k hp items tp →
  frame !! a = None →
  heap σ !! a = Some c ∧
  shape frame (set_heap (delete a (heap σ)) σ) k hp items tp.
Proof.
  intros [Hh Ht Hc Hnd Hfr Hdj] Hfa.
  assert (a ∉ footprint hp items) as Hnin.
  { intros Hin. apply Hdj in Hin. by rewrite lookup_insert_eq in Hin. }
  split.
  - rewrite Hfr by done. by rewrite lookup_insert_eq.
  - split; simpl; try done.
    + eapply chain_frame; [done|]. intros x Hx.
      apply lookup_delete_ne. by intros ->.
    + intros x Hx. destruct (decide (x = a)) as [->|Hxa].
      * by rewrite lookup_delete_eq.
      * rewrite lookup_delete_ne by done. rewrite Hfr by done.
        by rewrite lookup_insert_ne.
    + intros x Hx. apply Hdj in Hx. by apply lookup_insert_None in Hx as [? _].
Qed.

Lemma shape_value_fresh frame σ k hp a v nx items tp :
  shape frame σ k hp ((a, v, nx) :: items) tp → frame !! a = None.
Proof. intros [_ _ _ _ _ Hdj]. apply Hdj. simpl. rewrite !elem_of_cons. eauto. Qed.

Lemma consume_empty_spec frame n σ k hp tp :
  shape frame σ k hp [] tp →
  ∃ σ', run (consume (S n)) σ = (Done None, σ') ∧ shape frame σ' (k + 1) hp [] tp.
Proof.
  intros Hs. destruct (pop_empty_spec _ n _ _ _ _ Hs) as [Hrun Hs'].
  eexists. split; [|exact Hs'].
  unfold consume. exec. rewrite Hrun. exec. reflexivity.
Qed.

Lemma consume_spec frame n σ k hp a v nx items tp :
  shape frame σ k hp ((a, v, nx) :: items) tp →
  ∃ σ', run (consume (S n)) σ = (Done (Some v), σ') ∧ shape frame σ' 0 nx items tp.
Proof.
  intros Hs. destruct (pop_spec _ n _ _ _ _ _ _ _ _ Hs) as [Hrun Hs'].
  apply shape_delete_value in Hs' as [Hl Hs']; [|by eapply shape_value_fresh].
  eexists. split; [|exact Hs'].
  unfold consume. exec. rewrite Hrun. exec.
  simpl in *. rewrite Hl. simpl. exec. simpl. rewrite Hl. simpl. exec.
  reflexivity.
Qed.

(** ** Sequential clients *)

Lemma shape_empty_head frame σ k hp tp : shape frame σ k hp [] tp → hp = tp.
Proof. by intros [_ _ [? _] _ _ _]. Qed.

Lemma perform_op_spec frame n o σ k hp items tp :
  shape frame σ k hp items tp →
  ∃ e σ' k' hp' items' tp',
    run (perform_op (S n) o) σ = (Done e, σ') ∧
    shape frame σ' k' hp' items' tp' ∧
    contents items ++ pushed_values [e] = popped_values [e] ++ contents items'.
Proof.
  intros Hs. destruct o as [v|].
  - (* push *)
    unfold perform_op. exec. rewrite run_catch_bad_alloc.
    destruct (alloc (heap σ)) as [a|] eqn:Ha.
    + destruct (alloc (<[a := CVal v]> (heap σ))) as [nn|] eqn:Hn.
      * destruct (push_spec _ n v _ _ _ _ _ _ _ Hs Ha Hn) as (σ' & Hrun & Hs').
        rewrite Hrun. exec. do 6 eexists. split_and!; [reflexivity|exact Hs'|].
        simpl. by rewrite contents_snoc.
      * rewrite (push_bad_alloc_node _ _ _ _ Ha Hn). exec.
        do 6 eexists. split_and!; [reflexivity|exact Hs|].
        simpl. by rewrite app_nil_r.
    + rewrite (push_bad_alloc_value _ _ _ Ha). exec.
      do 6 eexists. split_and!; [reflexivity|exact Hs|].
      simpl. by rewrite app_nil_r.
  - (* pop *)
    unfold perform_op. exec. destruct items as [|[[a v] nx] items].
    + pose proof (shape_empty_head _ _ _ _ _ Hs) as ->.
      destruct (consume_empty_spec _ n _ _ _ _ Hs) as (σ' & Hrun & Hs').
      rewrite Hrun. exec. do 6 eexists. split_and!; [reflexivity|exact Hs'|reflexivity].
    + destruct (consume_spec _ n _ _ _ _ _ _ _ _ Hs) as (σ' & Hrun & Hs').
      rewrite Hrun. exec. do 6 eexists. split_and!; [reflexivity|exact Hs'|].
      unfold contents. simpl. by rewrite app_nil_r.
Qed.

Lemma pushed_values_cons e tr : pushed_values (e :: tr) = pushed_values [e] ++ pushed_values tr.
Proof. destruct e; simpl; by rewrite ?app_nil_r. Qed.

Lemma popped_values_cons e tr : popped_values (e :: tr) = popped_values [e] ++ popped_values tr.
Proof. destruct e as [| |[]]; simpl; by rewrite ?app_nil_r. Qed.

Lemma client_spec frame n ops σ k hp items tp :
  shape frame σ k hp items tp →
  ∃ tr σ' k' hp' items' tp',
    run (client (S n) ops) σ = (Done tr, σ') ∧
    shape frame σ' k' hp' items' tp' ∧
    contents items ++ pushed_values tr = popped_values tr ++ contents items'.
Proof.
  revert σ k hp items tp. induction ops as [|o ops IH]; intros σ k hp items tp Hs.
  - do 6 eexists. split_and!; [reflexivity|exact Hs|].
    simpl. by rewrite app_nil_r.
  - destruct (perform_op_spec _ n o _ _ _ _ _ Hs)
      as (e & σ1 & k1 & hp1 & items1 & tp1 & Hrun1 & Hs1 & Hv1).
    destruct (IH _ _ _ _ _ Hs1)
      as (tr & σ2 & k2 & hp2 & items2 & tp2 & Hrun2 & Hs2 & Hv2).
    exists (e :: tr), σ2, k2, hp2, items2, tp2. split_and!; [|done|].
    + change (client (S n) (o :: ops)) with
        (bind (perform_op (S n) o) (λ e, bind (client (S n) ops) (λ es, Ret (e :: es)))).
      exec. rewrite Hrun1. exec. rewrite Hrun2. exec. reflexivity.
    + rewrite pushed_values_cons, popped_values_cons, app_assoc, Hv1.
      rewrite <- !app_assoc. by rewrite Hv2.
Qed.

Lemma client_cons n o ops σ :
  run (client n (o :: ops)) σ =
  match run (perform_op n o) σ with
  | (Done e, σ') =>
      match run (client n ops) σ' with
      | (Done es, σ'') => (Done (e :: es), σ'')
      | (Aborted f, σ'') => (Aborted f, σ'')
      end
  | (Aborted f, σ') => (Aborted f, σ')
  end.
Proof.
  change (client n (o :: ops)) with
    (bind (perform_op n o) (λ e, bind (client n ops) (λ es, Ret (e :: es)))).
  exec. destruct (run (perform_op n o) σ) as [[e|f] σ']; [|done].
  exec. destruct (run (client n ops) σ') as [[es|f] σ'']; done.
Qed.

(** Pops alone: the values come out from the head, then the queue is empty. *)
Lemma pops_spec frame n m σ k hp items tp :
  shape frame σ k hp items tp →
  ∃ σ' k' hp' tp',
    run (client (S n) (repeat Pop m)) σ =
      (Done (map (λ v, Popped (Some v)) (take m (contents items))
             ++ repeat (Popped None) (m - length items)), σ') ∧
    shape frame σ' k' hp' (drop m items) tp'.
Proof.
  revert σ k hp items. induction m as [|m IH]; intros σ k hp items Hs.
  - do 4 eexists. split; [reflexivity|]. by rewrite drop_0.
  - simpl repeat. rewrite client_cons. unfold perform_op. exec.
    destruct items as [|[[a v] nx] items].
    + pose proof (shape_empty_head _ _ _ _ _ Hs) as ->.
      destruct (consume_empty_spec _ n _ _ _ _ Hs) as (σ1 & Hrun & Hs1).
      rewrite Hrun. exec.
      destruct (IH _ _ _ _ Hs1) as (σ2 & k2 & hp2 & tp2 & Hrun2 & Hs2).
      rewrite Hrun2. rewrite drop_nil in Hs2. do 4 eexists. split; [|exact Hs2].
      unfold contents. simpl. by rewrite take_nil, Nat.sub_0_r.
    + destruct (consume_spec _ n _ _ _ _ _ _ _ _ Hs) as (σ1 & Hrun & Hs1).
      rewrite Hrun. exec.
      destruct (IH _ _ _ _ Hs1) as (σ2 & k2 & hp2 & tp2 & Hrun2 & Hs2).
      rewrite Hrun2. do 4 eexists. split; [|exact Hs2]. reflexivity.
Qed.

(** ** The destructor *)

Lemma consume_of_pop n σ a v σ1 :
  run (pop n) σ = (Done (Some a), σ1) →
  heap σ1 !! a = Some (CVal v) →
  let σ2 := set_heap (delete a (heap σ1)) σ1 in
  run (consume n) σ = (Done (Some v), σ2) ∧
  run (drain_step n tt) σ = (Done (inl tt), σ2).
Proof.
  intros Hrun Hl σ2. unfold consume, drain_step. split.
  - exec. rewrite Hrun. exec. simpl. rewrite Hl. simpl. exec. simpl.
    rewrite Hl. simpl. exec. reflexivity.
  - exec. rewrite Hrun. exec. simpl. rewrite Hl. simpl. exec. reflexivity.
Qed.

Lemma consume_of_pop_empty n σ σ1 :
  run (pop n) σ = (Done None, σ1) →
  run (consume n) σ = (Done None, σ1) ∧
  run (drain_step n tt) σ = (Done (inr tt), σ1).
Proof.
  intros Hrun. unfold consume, drain_step.
  split; exec; rewrite Hrun; exec; reflexivity.
Qed.

(** The loop of the destructor does what [length items + 1] consumer pops
    do: every value comes out, the last pop finds the queue empty, and
    one dummy node is left. *)
Lemma drain_loop_spec frame n items : ∀ f σ k hp tp,
  shape frame σ k hp items tp →
  (length items < f)%nat →
  ∃ σe k',
    run (loop f (drain_step (S n)) tt) σ = (Done tt, σe) ∧
    run (client (S n) (repeat Pop (S (length items)))) σ =
      (Done (map (λ v, Popped (Some v)) (contents items) ++ [Popped None]), σe) ∧
    shape frame σe k' tp [] tp.
Proof.
  induction items as [|[[a v] nx] items IH]; intros f σ k hp tp Hs Hf;
    (destruct f as [|f]; [simpl in Hf; lia|]).
  - pose proof (shape_empty_head _ _ _ _ _ Hs) as ->.
    destruct (pop_empty_spec _ n _ _ _ _ Hs) as [Hrun Hs'].
    destruct (consume_of_pop_empty _ _ _ Hrun) as [Hc Hd].
    do 2 eexists. split_and!; [| |exact Hs'].
    + exec. rewrite Hd. exec. reflexivity.
    + simpl repeat. rewrite client_cons. unfold perform_op. exec.
      rewrite Hc. exec. reflexivity.
  - destruct (pop_spec _ n _ _ _ _ _ _ _ _ Hs) as [Hrun Hs'].
    apply shape_delete_value in Hs' as [Hl Hs']; [|by eapply shape_value_fresh].
    destruct (consume_of_pop _ _ _ _ _ Hrun Hl) as [Hc Hd].
    destruct (IH f _ _ _ _ Hs') as (σe & k' & Hloop & Hcl & Hse).
    { simpl in Hf. lia. }
    exists σe, k'. split_and!; [| |exact Hse].
    + exec. rewrite Hd. exec. exact Hloop.
    + simpl length. simpl repeat. rewrite client_cons. unfold perform_op. exec.
      rewrite Hc. exec. simpl repeat in Hcl. rewrite Hcl. reflexivity.
Qed.

Lemma shape_empty_heap frame σ k tp :
  shape frame σ k tp [] tp →
  heap σ = <[tp := dummy_node (to_internal (- k))]> frame ∧ frame !! tp = None.
Proof.
  intros [Hh Ht [_ Hl] Hnd Hfr Hdj]. split.
  - apply map_eq. intros x. destruct (decide (x = tp)) as [->|Hne].
    + by rewrite lookup_insert_eq.
    + rewrite lookup_insert_ne by done. apply Hfr.
      by intros ?%list_elem_of_singleton.
  - apply Hdj. by apply list_elem_of_singleton.
Qed.

Lemma destructor_spec frame n σ k hp items tp :
  shape frame σ k hp items tp →
  (length items < S n)%nat →
  ∃ σe σ' c,
    run (drain (S n)) σ = (Done tt, σe) ∧
    run (client (S n) (repeat Pop (S (length items)))) σ =
      (Done (map (λ v, Popped (Some v)) (contents items) ++ [Popped None]), σe) ∧
    counted_node_ptr.ptr (head σe) = Some tp ∧
    heap σe = <[tp := dummy_node c]> frame ∧ frame !! tp = None ∧
    run (lock_free_queue_destructor (S n)) σ = (Done tt, σ') ∧
    heap σ' = frame.
Proof.
  intros Hs Hf.
  destruct (drain_loop_spec _ n _ _ _ _ _ _ Hs Hf) as (σe & k' & Hloop & Hcl & Hse).
  destruct (shape_empty_heap _ _ _ _ Hse) as [Hheap Hfresh].
  exists σe. eexists. exists (to_internal (- k')).
  split_and!; [exact Hloop|exact Hcl| |exact Hheap|exact Hfresh| |].
  - destruct Hse as [-> _ _ _ _ _]. reflexivity.
  - unfold lock_free_queue_destructor. exec. unfold drain. rewrite Hloop. exec.
    simpl. destruct Hse as [-> _ _ _ _ _]. simpl. exec. simpl.
    rewrite Hheap, lookup_insert_eq. simpl. reflexivity.
  - simpl. by rewrite delete_insert_id.
Qed.

(** ** Fresh queues *)

Lemma lock_free_queue_done σ0 σ1 :
  run lock_free_queue σ0 = (Done tt, σ1) →
  ∃ d, σ1 = mk_state (counted_node_ptr.mk 1 (Some d)) (counted_node_ptr.mk 1 (Some d))
                     (<[d := dummy_node 0]> (heap σ0)) ∧
       heap σ0 !! d = None ∧
       shape (heap σ0) σ1 0 d [] d.
Proof.
  intros Hrun. destruct (alloc (heap σ0)) as [d|] eqn:Ha.
  - destruct (lock_free_queue_spec _ _ Ha) as [Hrun' Hs].
    rewrite Hrun' in Hrun. injection Hrun as <-.
    exists d. split_and!; [done|by eapply alloc_fresh|done].
  - rewrite (lock_free_queue_bad_alloc _ Ha) in Hrun. discriminate.
Qed.

Lemma push_done frame n v σ k hp items tp σ' :
  shape frame σ k hp items tp →
  run (push (S n) v) σ = (Done tt, σ') →
  ∃ a nn, shape frame σ' k hp (items ++ [(a, v, nn)]) nn.
Proof.
  intros Hs Hrun. destruct (alloc (heap σ)) as [a|] eqn:Ha.
  - destruct (alloc (<[a := CVal v]> (heap σ))) as [nn|] eqn:Hn.
    + destruct (push_spec _ n v _ _ _ _ _ _ _ Hs Ha Hn) as (σ2 & Hrun2 & Hs2).
      rewrite Hrun2 in Hrun. injection Hrun as <-. eauto.
    + rewrite (push_bad_alloc_node _ _ _ _ Ha Hn) in Hrun. discriminate.
  - rewrite (push_bad_alloc_value _ _ _ Ha) in Hrun. discriminate.
Qed.

Lemma pushed_values_app t1 t2 :
  pushed_values (t1 ++ t2) = pushed_values t1 ++ pushed_values t2.
Proof.
  induction t1 as [|e t1 IH]; [done|].
  rewrite <- app_comm_cons, pushed_values_cons, (pushed_values_cons e t1), IH.
  by rewrite app_assoc.
Qed.

Lemma popped_values_app t1 t2 :
  popped_values (t1 ++ t2) = popped_values t1 ++ popped_values t2.
Proof.
  induction t1 as [|e t1 IH]; [done|].
  rewrite <- app_comm_cons, popped_values_cons, (popped_values_cons e t1), IH.
  by rewrite app_assoc.
Qed.

Lemma pushed_values_pops (l : list T) j :
  pushed_values (map (λ v, Popped (Some v)) l ++ repeat (Popped None) j) = [].
Proof.
  induction l as [|v l IH]; simpl; [|done].
  induction j as [|j IHj]; simpl; done.
Qed.

Lemma popped_values_pops (l : list T) j :
  popped_values (map (λ v, Popped (Some v)) l ++ repeat (Popped None) j) = l.
Proof.
  induction l as [|v l IH]; simpl; [|by rewrite IH].
  induction j as [|j IHj]; simpl; done.
Qed.

(** ** Histories of the sequential client *)

Lemma fifo_spec_cons e tr q q' q'' :
  fifo_spec [e] q q' → fifo_spec tr q' q'' → fifo_spec (e :: tr) q q''.
Proof.
  destruct e as [v|v|r]; simpl.
  - by intros ->.
  - by intros ->.
  - by intros [-> ->].
Qed.

Lemma fifo_spec_values tr : ∀ q q',
  fifo_spec tr q q' → q ++ pushed_values tr = popped_values tr ++ q'.
Proof.
  induction tr as [|[v|v|r] tr IH]; intros q q'; simpl.
  - intros ->. by rewrite app_nil_r.
  - intros H. apply IH in H. by rewrite <- app_assoc in H.
  - apply IH.
  - intros [-> H]. apply IH in H. destruct q as [|x q]; simpl in *; [done|].
    by rewrite H.
Qed.

Lemma perform_op_history frame n o σ k hp items tp :
  shape frame σ k hp items tp →
  ∃ e σ' k' hp' items' tp',
    run (perform_op (S n) o) σ = (Done e, σ') ∧
    shape frame σ' k' hp' items' tp' ∧
    answers o e ∧
    fifo_spec [e] (contents items) (contents items') ∧
    ((∀ h, is_Some (alloc h)) → [e] = fifo_answers [o] (contents items)) ∧
    (∀ v, o = Push v → (e = Pushed v ↔ push_allocates v σ)).
Proof.
  intros Hs. destruct o as [v|].
  - (* push *)
    unfold perform_op. exec. rewrite run_catch_bad_alloc.
    destruct (alloc (heap σ)) as [a|] eqn:Ha.
    + destruct (alloc (<[a := CVal v]> (heap σ))) as [nn|] eqn:Hn.
      * destruct (push_spec _ n v _ _ _ _ _ _ _ Hs Ha Hn) as (σ' & Hrun & Hs').
        rewrite Hrun. exec. do 6 eexists.
        split_and!; [reflexivity|exact Hs'|by left| | |].
        -- simpl. by rewrite contents_snoc.
        -- reflexivity.
        -- intros v' [= <-]. split; [|done]. intros _. by exists a, nn.
      * rewrite (push_bad_alloc_node _ _ _ _ Ha Hn). exec.
        do 6 eexists. split_and!; [reflexivity|exact Hs|by right|reflexivity| |].
        -- intros Htotal. destruct (Htotal (<[a := CVal v]> (heap σ))) as [? ?].
           congruence.
        -- intros v' [= <-]. split; [done|].
           intros (a' & nn' & Ha' & Hn'). congruence.
    + rewrite (push_bad_alloc_value _ _ _ Ha). exec.
      do 6 eexists. split_and!; [reflexivity|exact Hs|by right|reflexivity| |].
      * intros Htotal. destruct (Htotal (heap σ)) as [? ?]. congruence.
      * intros v' [= <-]. split; [done|].
        intros (a' & nn' & Ha' & Hn'). congruence.
  - (* pop *)
    unfold perform_op. exec. destruct items as [|[[a v] nx] items].
    + pose proof (shape_empty_head _ _ _ _ _ Hs) as ->.
      destruct (consume_empty_spec _ n _ _ _ _ Hs) as (σ' & Hrun & Hs').
      rewrite Hrun. exec. do 6 eexists.
      split_and!; [reflexivity|exact Hs'|by eexists|done|done|done].
    + destruct (consume_spec _ n _ _ _ _ _ _ _ _ Hs) as (σ' & Hrun & Hs').
      rewrite Hrun. exec. do 6 eexists.
      split_and!; [reflexivity|exact Hs'|by eexists|done|done|done].
Qed.

Lemma client_history frame n ops : ∀ σ k hp items tp,
  shape frame σ k hp items tp →
  ∃ tr σ' k' hp' items' tp',
    run (client (S n) ops) σ = (Done tr, σ') ∧
    shape frame σ' k' hp' items' tp' ∧
    Forall2 answers ops tr ∧
    fifo_spec tr (contents items) (contents items') ∧
    ((∀ h, is_Some (alloc h)) → tr = fifo_answers ops (contents items)).
Proof.
  induction ops as [|o ops IH]; intros σ k hp items tp Hs.
  - do 6 eexists. split_and!; [reflexivity|exact Hs|constructor|done|done].
  - destruct (perform_op_history _ n o _ _ _ _ _ Hs)
      as (e & σ1 & k1 & hp1 & items1 & tp1 & Hrun1 & Hs1 & Ha1 & Hf1 & Ht1 & _).
    destruct (IH _ _ _ _ _ Hs1)
      as (tr & σ2 & k2 & hp2 & items2 & tp2 & Hrun2 & Hs2 & Ha2 & Hf2 & Ht2).
    exists (e :: tr), σ2, k2, hp2, items2, tp2.
    split_and!; [|done|by constructor|by eapply fifo_spec_cons|].
    + rewrite client_cons, Hrun1, Hrun2. reflexivity.
    + intros Htotal. specialize (Ht1 Htotal). specialize (Ht2 Htotal).
      destruct o as [v|]; simpl in *.
      * injection Ht1 as ->. f_equal.
        simpl in Hf1. rewrite Ht2. by rewrite Hf1.
      * injection Ht1 as ->. f_equal.
        simpl in Hf1. destruct Hf1 as [_ Hf1]. rewrite Ht2. by rewrite Hf1.
Qed.

Lemma client_app n ops1 ops2 : ∀ σ,
  run (client n (ops1 ++ ops2)) σ =
  match run (client n ops1) σ with
  | (Done t1, σ') =>
      match run (client n ops2) σ' with
      | (Done t2, σ'') => (Done (t1 ++ t2), σ'')
      | (Aborted f, σ'') => (Aborted f, σ'')
      end
  | (Aborted f, σ') => (Aborted f, σ')
  end.
Proof.
  induction ops1 as [|o ops1 IH]; intros σ.
  - simpl. exec. by destruct (run (client n ops2) σ) as [[t2|f] σ''].
  - rewrite <- app_comm_cons, !client_cons.
    destruct (run (perform_op n o) σ) as [[e|f] σ1]; [|done].
    rewrite IH. destruct (run (client n ops1) σ1) as [[t1|f] σ2]; [|done].
    by destruct (run (client n ops2) σ2) as [[t2|f] σ3].
Qed.

(** ** Threads under interference *)

Lemma trace_bind {A B} (p : prog A) (f : A → prog B) steps r :
  trace (bind p f) steps r →
  (trace p steps None ∧ r = None) ∨
  (∃ e, trace p steps (Some (Aborted e)) ∧ r = Some (Aborted e)) ∨
  (∃ a s1 s2, steps = s1 ++ s2 ∧ trace p s1 (Some (Done a)) ∧ trace (f a) s2 r).
Proof.
  revert steps. induction p as [a|e|C act k IH]; intros steps.
  - intros H. right; right. by exists a, [], steps.
  - intros [-> ->]. right; left. by exists e.
  - intros [[-> ->]|(b & rest & σ & σ' & Hdo & -> & H)].
    + left. split; [by left|done].
    + apply IH in H as [[H ->]|[(e & H & ->)|(a & s1 & s2 & -> & H1 & H2)]].
      * left. split; [|done]. right. by exists b, rest, σ, σ'.
      * right; left. exists e. split; [|done]. right. by exists b, rest, σ, σ'.
      * right; right. exists a, (label_of act b :: s1), s2.
        split_and!; [done| |done]. right. by exists b, s1, σ, σ'.
Qed.

Lemma trace_act {A B} (act : action B) (k : B → prog A) steps r :
  trace (Act act k) steps r →
  (steps = [] ∧ r = None) ∨
  ∃ b rest σ σ',
    do_action act σ = Some (b, σ') ∧
    steps = label_of act b :: rest ∧
    trace (k b) rest r.
Proof. exact id. Qed.

Lemma release_rule_skip c l steps :
  neutral l → release_rule c (l :: steps) ↔ release_rule c steps.
Proof.
  destruct l as [| |[] ? ? [[] ?]| | | | | | |? ? ? [[] ?]| | | | |]; simpl; done.
Qed.

Lemma release_rule_neutral c s rest :
  Forall neutral s → release_rule c rest → release_rule c (s ++ rest).
Proof.
  induction 1 as [|l s Hl _ IH]; intros Hrest; [done|].
  rewrite <- app_comm_cons. apply release_rule_skip; auto.
Qed.

Lemma quiet_label {B} (act : action B) (b : B) :
  quiet_action act → neutral (label_of act b).
Proof. destruct act as [| |[]| | | | | | | | | | | |]; simpl; done. Qed.

Lemma quiet_trace {A} (p : prog A) : ∀ steps r,
  quiet p → trace p steps r → Forall neutral steps.
Proof.
  induction p as [a|e|C act k IH]; intros steps r Hq.
  - by intros [-> _].
  - by intros [-> _].
  - destruct Hq as [Hact Hk].
    intros [[-> _]|(b & rest & σ & σ' & _ & -> & H)]; [done|].
    constructor; [by apply quiet_label|]. by eapply IH.
Qed.

Lemma quiet_bind {A B} (p : prog A) (f : A → prog B) :
  quiet p → (∀ a, quiet (f a)) → quiet (bind p f).
Proof.
  intros Hp Hf. induction p as [a|e|C act k IH]; [apply Hf|done|].
  destruct Hp as [Hact Hk]. split; [done|]. intros b. by apply IH.
Qed.

Lemma quiet_perform {B} (act : action B) : quiet_action act → quiet (perform act).
Proof. intros Hact. by split. Qed.

Lemma quiet_loop {S R} (body : S → prog (S + R)) :
  (∀ s, quiet (body s)) → ∀ n s, quiet (loop n body s).
Proof.
  intros Hbody. induction n as [|n IH]; intros s; [done|].
  rewrite loop_S. apply quiet_bind; [done|]. by intros [s'|r].
Qed.

Lemma quiet_obeys {A} (p : prog A) : quiet p → obeys p.
Proof.
  intros Hq steps r claimed Ht.
  pose proof (quiet_trace _ _ _ Hq Ht) as Hn.
  destruct r as [[a|e]|].
  - intros rest Hrest. by apply release_rule_neutral.
  - rewrite <- (app_nil_r steps). by apply release_rule_neutral.
  - rewrite <- (app_nil_r steps). by apply release_rule_neutral.
Qed.

Lemma obeys_bind {A B} (p : prog A) (f : A → prog B) :
  obeys p → (∀ a, obeys (f a)) → obeys (bind p f).
Proof.
  intros Hp Hf steps r claimed Ht.
  apply trace_bind in Ht as [[H ->]|[(e & H & ->)|(a & s1 & s2 & -> & H1 & H2)]].
  - exact (Hp _ _ claimed H).
  - exact (Hp _ _ claimed H).
  - pose proof (Hp _ _ claimed H1) as Hext. simpl in Hext.
    destruct r as [[b|e]|].
    + intros rest Hrest. rewrite <- app_assoc. apply Hext.
      intros c. by apply (Hf a _ _ c H2).
    + apply Hext. intros c. exact (Hf a _ _ c H2).
    + apply Hext. intros c. exact (Hf a _ _ c H2).
Qed.

Lemma quiet_release_ref n p : quiet (release_ref n p).
Proof.
  unfold release_ref. apply quiet_bind; [by apply quiet_perform|]. intros c.
  apply quiet_bind.
  - apply quiet_loop. intros c'. unfold release_ref_try.
    apply quiet_bind; [by apply quiet_perform|]. by intros [[] ?].
  - intros new. destruct (counter_is_zero new); [by apply quiet_perform|done].
Qed.

Lemma quiet_free_external_counter n c : quiet (free_external_counter n c).
Proof.
  unfold free_external_counter. apply quiet_bind; [by apply quiet_perform|].
  intros c0. apply quiet_bind.
  - apply quiet_loop. intros c'. unfold free_external_counter_try.
    apply quiet_bind; [by apply quiet_perform|]. by intros [[] ?].
  - intros new. destruct (counter_is_zero new); [by apply quiet_perform|done].
Qed.

Lemma quiet_pop n : quiet (pop n).
Proof.
  unfold pop. apply quiet_bind; [by apply quiet_perform|]. intros old_head.
  apply quiet_loop. clear old_head. intros old_head. unfold pop_attempt.
  apply quiet_bind.
  { unfold increase_external_count. apply quiet_loop. intros c.
    unfold increase_external_count_try.
    apply quiet_bind; [by apply quiet_perform|]. by intros [[] ?]. }
  intros claimed. apply quiet_bind; [by apply quiet_perform|]. intros t.
  destruct (decide _).
  - apply quiet_bind; [apply quiet_release_ref|done].
  - apply quiet_bind; [by apply quiet_perform|]. intros nxt.
    apply quiet_bind; [by apply quiet_perform|]. intros [[] old_head'].
    + apply quiet_bind; [by apply quiet_perform|]. intros res.
      apply quiet_bind; [apply quiet_free_external_counter|done].
    + apply quiet_bind; [apply quiet_release_ref|done].
Qed.

Lemma quiet_consume n : quiet (consume n).
Proof.
  unfold consume. apply quiet_bind; [apply quiet_pop|]. intros [a|]; [|done].
  apply quiet_bind; [by apply quiet_perform|]. intros v.
  apply quiet_bind; [by apply quiet_perform|done].
Qed.

Lemma trace_release_loop p n : ∀ c steps r,
  trace (loop n (release_ref_try p) c) steps r →
  match r with
  | Some (Done new) =>
      ∀ rest, release_settles p new rest → release_loop p c (steps ++ rest)
  | _ => release_loop p c steps
  end.
Proof.
  induction n as [|n IH]; intros c steps r H.
  - hnf in H. by destruct H as [-> ->].
  - apply trace_act in H as [[-> ->]|(b & rest & σ & σ' & _ & -> & H)]; [done|].
    destruct b as [[] observed].
    + hnf in H. destruct H as [-> ->]. intros rest Hrest. simpl.
      unfold release_ref_counter in Hrest |- *.
      rewrite to_internal_dec in Hrest |- *. done.
    + change (trace (loop n (release_ref_try p) observed) rest r) in H.
      apply IH in H. unfold release_ref_counter. rewrite to_internal_dec.
      destruct r as [[new|e]|]; simpl; [|done|done].
      intros rest' Hrest'. split_and!; [done|done|done|]. by apply H.
Qed.

Lemma trace_release_ref n p steps r :
  trace (release_ref n p) steps r →
  match r with
  | Some (Done _) => ∀ rest, starts_quietly rest → release_steps p (steps ++ rest)
  | _ => release_steps p steps
  end.
Proof.
  intros H.
  apply trace_act in H as [[-> ->]|(c & rest & σ & σ' & _ & -> & H)]; [done|].
  change (trace (bind (loop n (release_ref_try p) c)
                   (λ new, if counter_is_zero new then perform (DeleteNode p)
                           else Ret tt)) rest r) in H.
  apply trace_bind in H as [[H ->]|[(e & H & ->)|(new & s1 & s2 & -> & H1 & H2)]].
  - apply trace_release_loop in H. by split.
  - apply trace_release_loop in H. by split.
  - apply trace_release_loop in H1. simpl in H1.
    assert (counter_is_zero new = true ↔
            node_counter.internal_count new = 0 ∧ node_counter.external_count new = 0)
      as Hzero.
    { unfold counter_is_zero. by rewrite andb_true_iff, !Z.eqb_eq. }
    destruct (counter_is_zero new).
    + apply trace_act in H2 as [[-> ->]|([] & rest & σ1 & σ1' & _ & -> & H2)].
      * split; [done|]. by apply H1.
      * hnf in H2. destruct H2 as [-> ->]. intros rest Hrest.
        split; [done|]. rewrite <- app_assoc. apply H1. simpl.
        split; [intros _; by apply Hzero|done].
    + hnf in H2. destruct H2 as [-> ->]. intros rest Hrest.
      split; [done|]. rewrite app_nil_r. apply H1.
      destruct rest as [|l rest]; [done|]. simpl. split.
      * intros ->. done.
      * intros Hz. apply Hzero in Hz. done.
Qed.

Lemma trace_increase_tail n : ∀ old steps r,
  trace (loop n (increase_external_count_try Tail) old) steps r →
  ∀ claimed,
    starts_quietly steps ∧
    match r with
    | Some (Done a) =>
        ∀ rest, release_rule (counted_node_ptr.ptr a) rest →
                release_rule claimed (steps ++ rest)
    | _ => release_rule claimed steps
    end.
Proof.
  induction n as [|n IH]; intros old steps r H claimed.
  - hnf in H. by destruct H as [-> ->].
  - apply trace_act in H as [[-> ->]|(b & rest & σ & σ' & Hdo & -> & H)]; [done|].
    split; [done|]. simpl in Hdo. destruct (decide _) in Hdo.
    + injection Hdo as <- _. hnf in H. destruct H as [-> ->].
      intros rest Hrest. exact Hrest.
    + injection Hdo as <- _.
      change (trace (loop n (increase_external_count_try Tail) (get_slot Tail σ)) rest r)
        in H.
      apply (IH _ _ _ H claimed).
Qed.

Lemma no_bad_alloc_trace {A} (p : prog A) : ∀ steps r,
  no_bad_alloc p → trace p steps r → r ≠ Some (Aborted bad_alloc).
Proof.
  induction p as [a|e|C act k IH]; intros steps r Hp.
  - by intros [_ ->].
  - intros [_ ->] [= ->]. done.
  - intros [[_ ->]|(b & rest & σ & σ' & _ & _ & H)]; [done|]. by eapply IH.
Qed.

Lemma no_bad_alloc_bind {A B} (p : prog A) (f : A → prog B) :
  no_bad_alloc p → (∀ a, no_bad_alloc (f a)) → no_bad_alloc (bind p f).
Proof.
  intros Hp Hf. induction p as [a|e|C act k IH]; [apply Hf|done|].
  intros b. apply IH, Hp.
Qed.

Lemma no_bad_alloc_perform {B} (act : action B) : no_bad_alloc (perform act).
Proof. by intros b. Qed.

Lemma no_bad_alloc_loop {S R} (body : S → prog (S + R)) :
  (∀ s, no_bad_alloc (body s)) → ∀ n s, no_bad_alloc (loop n body s).
Proof.
  intros Hbody. induction n as [|n IH]; intros s; [done|].
  rewrite loop_S. apply no_bad_alloc_bind; [done|]. by intros [s'|r].
Qed.

Lemma no_bad_alloc_release_ref n p : no_bad_alloc (release_ref n p).
Proof.
  unfold release_ref. apply no_bad_alloc_bind; [apply no_bad_alloc_perform|].
  intros c. apply no_bad_alloc_bind.
  - apply no_bad_alloc_loop. intros c'. unfold release_ref_try.
    apply no_bad_alloc_bind; [apply no_bad_alloc_perform|]. by intros [[] ?].
  - intros new. destruct (counter_is_zero new); [apply no_bad_alloc_perform|done].
Qed.

Lemma no_bad_alloc_free_external_counter n c :
  no_bad_alloc (free_external_counter n c).
Proof.
  unfold free_external_counter.
  apply no_bad_alloc_bind; [apply no_bad_alloc_perform|].
  intros c0. apply no_bad_alloc_bind.
  - apply no_bad_alloc_loop. intros c'. unfold free_external_counter_try.
    apply no_bad_alloc_bind; [apply no_bad_alloc_perform|]. by intros [[] ?].
  - intros new. destruct (counter_is_zero new); [apply no_bad_alloc_perform|done].
Qed.

Lemma no_bad_alloc_push_loop n new_data new_next m old :
  no_bad_alloc (loop m (push_attempt n new_data new_next) old).
Proof.
  apply no_bad_alloc_loop. clear old. intros old. unfold push_attempt.
  apply no_bad_alloc_bind.
  { unfold increase_external_count. apply no_bad_alloc_loop. intros c.
    unfold increase_external_count_try.
    apply no_bad_alloc_bind; [apply no_bad_alloc_perform|]. by intros [[] ?]. }
  intros claimed. apply no_bad_alloc_bind; [apply no_bad_alloc_perform|].
  intros [[] observed].
  - apply no_bad_alloc_bind; [apply no_bad_alloc_perform|]. intros _.
    apply no_bad_alloc_bind; [apply no_bad_alloc_perform|]. intros old_tail.
    apply no_bad_alloc_bind; [apply no_bad_alloc_free_external_counter|done].
  - apply no_bad_alloc_bind; [apply no_bad_alloc_release_ref|done].
Qed.

Lemma quiet_extends {A} (p : prog A) steps r c rest :
  quiet p → trace p steps r → release_rule c rest → release_rule c (steps ++ rest).
Proof.
  intros Hq Ht. apply release_rule_neutral. by eapply quiet_trace.
Qed.

Lemma starts_quietly_app s1 s2 :
  starts_quietly s1 → s1 ≠ [] → starts_quietly (s1 ++ s2).
Proof. by destruct s1. Qed.

Lemma trace_increase_tail_done n : ∀ old steps a,
  trace (loop n (increase_external_count_try Tail) old) steps (Some (Done a)) →
  steps ≠ [].
Proof.
  destruct n as [|n]; intros old steps a H.
  - hnf in H. by destruct H as [_ ?].
  - apply trace_act in H as [[_ ?]|(b & rest & σ & σ' & _ & -> & _)]; done.
Qed.

Lemma trace_push_attempt n new_data new_next old steps r :
  trace (push_attempt n new_data new_next old) steps r →
  ∀ claimed,
    starts_quietly steps ∧
    match r with
    | Some (Done a) =>
        steps ≠ [] ∧
        ∀ rest,
          (if a is inl _ then starts_quietly rest else True) →
          (∀ c, release_rule c rest) →
          release_rule claimed (steps ++ rest)
    | _ => release_rule claimed steps
    end.
Proof.
  intros H claimed. unfold push_attempt, increase_external_count in H.
  apply trace_bind in H as [[H ->]|[(e & H & ->)|(a & s1 & s2 & -> & H1 & H2)]].
  - by destruct (trace_increase_tail _ _ _ _ H claimed).
  - by destruct (trace_increase_tail _ _ _ _ H claimed).
  - pose proof (trace_increase_tail_done _ _ _ _ H1) as Hne.
    destruct (trace_increase_tail _ _ _ _ H1 claimed) as [Hq Hext]. simpl in Hext.
    assert (∀ s, starts_quietly (s1 ++ s)) as Hqs
      by (intros s; by apply starts_quietly_app).
    assert (∀ s, s1 ++ s ≠ []) as Hnes by (intros s; by destruct s1).
    split; [done|].
    apply trace_act in H2 as [[-> ->]|(b & rest & σ & σ' & _ & -> & H2)].
    { by apply Hext. }
    destruct b as [[] observed].
    + (* installed *)
      change (trace
                (bind (perform (NextStore (counted_node_ptr.ptr a) new_next))
                   (λ _, bind (perform (SlotExchange Tail new_next))
                     (λ old_tail, bind (free_external_counter n old_tail)
                       (λ _, Ret (inr tt))))) rest r) in H2.
      assert (∀ c s, release_rule c s → release_rule c (rest ++ s)) as Hrest.
      { intros c s. eapply quiet_extends; [|exact H2].
        apply quiet_bind; [by apply quiet_perform|]. intros _.
        apply quiet_bind; [by apply quiet_perform|]. intros old_tail.
        apply quiet_bind; [apply quiet_free_external_counter|done]. }
      destruct r as [[b|e]|].
      * split; [done|]. intros s _ Hs. rewrite <- app_assoc. apply Hext.
        simpl. by apply Hrest.
      * apply Hext. simpl. rewrite <- (app_nil_r rest). by apply Hrest.
      * apply Hext. simpl. rewrite <- (app_nil_r rest). by apply Hrest.
    + (* not installed: the release *)
      change (trace (bind (release_ref n (counted_node_ptr.ptr a))
                          (λ _, Ret (inl a))) rest r) in H2.
      apply trace_bind in H2
        as [[H2 ->]|[(e & H2 & ->)|([] & s2 & s3 & -> & H2 & H3)]].
      * apply Hext. simpl. split_and!; [done| |].
        -- exact (trace_release_ref _ _ _ _ H2).
        -- rewrite <- (app_nil_r rest).
           eapply quiet_extends; [apply quiet_release_ref|exact H2|done].
      * apply Hext. simpl. split_and!; [done| |].
        -- exact (trace_release_ref _ _ _ _ H2).
        -- rewrite <- (app_nil_r rest).
           eapply quiet_extends; [apply quiet_release_ref|exact H2|done].
      * hnf in H3. destruct H3 as [-> ->]. split; [done|].
        intros s Hqs' Hs. rewrite <- app_assoc. apply Hext.
        rewrite app_nil_r. simpl. split_and!; [done| |].
        -- by apply (trace_release_ref _ _ _ _ H2).
        -- eapply quiet_extends; [apply quiet_release_ref|exact H2|done].
Qed.

Lemma trace_push_loop n new_data new_next m : ∀ old steps r,
  trace (loop m (push_attempt n new_data new_next) old) steps r →
  ∀ claimed,
    starts_quietly steps ∧
    match r with
    | Some (Done _) =>
        steps ≠ [] ∧
        ∀ rest, (∀ c, release_rule c rest) → release_rule claimed (steps ++ rest)
    | _ => release_rule claimed steps
    end.
Proof.
  induction m as [|m IH]; intros old steps r H claimed.
  - hnf in H. by destruct H as [-> ->].
  - rewrite loop_S in H.
    apply trace_bind in H as [[H ->]|[(e & H & ->)|(a & s1 & s2 & -> & H1 & H2)]].
    + by destruct (trace_push_attempt _ _ _ _ _ _ H claimed).
    + by destruct (trace_push_attempt _ _ _ _ _ _ H claimed).
    + destruct (trace_push_attempt _ _ _ _ _ _ H1 claimed) as [Hq1 [Hne1 Hext]].
      assert (∀ s, starts_quietly (s1 ++ s)) as Hqs
        by (intros s; by apply starts_quietly_app).
      assert (∀ s, s1 ++ s ≠ []) as Hnes by (intros s; by destruct s1).
      split; [done|]. destruct a as [old'|[]].
      * assert (∀ c, starts_quietly s2 ∧
                  match r with
                  | Some (Done _) =>
                      s2 ≠ [] ∧
                      ∀ rest, (∀ c, release_rule c rest) → release_rule c (s2 ++ rest)
                  | _ => release_rule c s2
                  end) as Hloop by (intros c; exact (IH _ _ _ H2 c)).
        destruct r as [[b|e]|].
        -- split; [done|]. intros rest Hrest. rewrite <- app_assoc. apply Hext.
           ++ simpl. destruct (Hloop None) as (Hq2 & Hne2 & _).
              by apply starts_quietly_app.
           ++ intros c. destruct (Hloop c) as (_ & _ & Hc). by apply Hc.
        -- apply Hext; [apply (Hloop None)|]. intros c. apply (Hloop c).
        -- apply Hext; [apply (Hloop None)|]. intros c. apply (Hloop c).
      * hnf in H2. destruct H2 as [-> ->]. split; [done|].
        intros rest Hrest. rewrite app_nil_r. by apply Hext.
Qed.

Lemma trace_push n v steps r :
  trace (push n v) steps r →
  ∀ claimed,
    match r with
    | Some (Done _) =>
        ∀ rest, (∀ c, release_rule c rest) → release_rule claimed (steps ++ rest)
    | Some (Aborted bad_alloc) => Forall neutral steps
    | _ => release_rule claimed steps
    end.
Proof.
  intros H claimed.
  apply trace_act in H as [[-> ->]|(new_data & s1 & σ1 & σ1' & _ & -> & H)]; [done|].
  destruct new_data as [a|]; cycle 1.
  { hnf in H. destruct H as [-> ->]. by repeat constructor. }
  apply trace_act in H as [[-> ->]|(node_ptr & s2 & σ2 & σ2' & _ & -> & H)]; [done|].
  destruct node_ptr as [nn|]; cycle 1.
  { apply trace_act in H as [[-> ->]|([] & s3 & σ3 & σ3' & _ & -> & H)]; [done|].
    hnf in H. destruct H as [-> ->]. by repeat constructor. }
  apply trace_act in H as [[-> ->]|(old_tail & s3 & σ3 & σ3' & _ & -> & H)]; [done|].
  change (trace (loop n (push_attempt n (Some a) (counted_node_ptr.mk 1 (Some nn)))
                      old_tail) s3 r) in H.
  pose proof (no_bad_alloc_trace _ _ _ (no_bad_alloc_push_loop _ _ _ _ _) H) as Hnb.
  destruct (trace_push_loop _ _ _ _ _ _ _ H claimed) as [_ Hr].
  destruct r as [[b|[]]|]; simpl; try done.
  intros rest Hrest. by apply Hr.
Qed.

Lemma trace_catch_bad_alloc {A} (p : prog A) : ∀ steps r,
  trace (catch_bad_alloc p) steps r →
  ∃ r0, trace p steps r0 ∧
    r = match r0 with
        | Some (Done a) => Some (Done (Some a))
        | Some (Aborted bad_alloc) => Some (Done None)
        | Some (Aborted f) => Some (Aborted f)
        | None => None
        end.
Proof.
  induction p as [a|e|C act k IH]; intros steps r.
  - intros [-> ->]. by exists (Some (Done a)).
  - destruct e; intros [-> ->]; by eexists (Some (Aborted _)).
  - intros [[-> ->]|(b & rest & σ & σ' & Hdo & -> & H)].
    + exists None. split; [by left|done].
    + apply IH in H as (r0 & H & ->). exists r0. split; [|done].
      right. by exists b, rest, σ, σ'.
Qed.

Lemma obeys_perform_op n o : obeys (perform_op n o).
Proof.
  destruct o as [v|]; unfold perform_op.
  - apply obeys_bind; [|intros r; by apply quiet_obeys].
    intros steps r claimed H.
    apply trace_catch_bad_alloc in H as (r0 & H & ->).
    pose proof (trace_push _ _ _ _ H claimed) as Hp.
    destruct r0 as [[[]|[]]|]; try done.
    intros rest Hrest. by apply release_rule_neutral.
  - apply obeys_bind; [|intros r; by apply quiet_obeys].
    apply quiet_obeys, quiet_consume.
Qed.

Lemma obeys_client n ops : obeys (client n ops).
Proof.
  induction ops as [|o ops IH]; [by apply quiet_obeys|].
  change (client n (o :: ops)) with
    (bind (perform_op n o) (λ e, bind (client n ops) (λ es, Ret (e :: es)))).
  apply obeys_bind; [apply obeys_perform_op|]. intros e.
  apply obeys_bind; [done|]. intros es. by apply quiet_obeys.
Qed.

Lemma interleave_cons {A} j schedule (pool : list (prog A)) σ log pool' σ' :
  interleave (j :: schedule) pool σ = Some (log, pool', σ') →
  ∃ B (act : action B) (k : B → prog A) b σ1 log1,
    pool !! j = Some (Act act k) ∧
    do_action act σ = Some (b, σ1) ∧
    interleave schedule (<[j := k b]> pool) σ1 = Some (log1, pool', σ') ∧
    log = (j, label_of act b) :: log1.
Proof.
  simpl. destruct (pool !! j) as [p|] eqn:Hj; [|done]. simpl.
  destruct p as [a|e|B act k]; [done|done|]. simpl.
  destruct (do_action act σ) as [[b σ1]|] eqn:Hdo; [|done]. simpl.
  destruct (interleave schedule (<[j := k b]> pool) σ1)
    as [[[log1 pool1] σ2]|] eqn:Hrest; [|done].
  simpl. intros [= <- <- <-]. by exists B, act, k, b, σ1, log1.
Qed.

Lemma interleave_trace {A} schedule : ∀ (pool : list (prog A)) σ log pool' σ' i p,
  interleave schedule pool σ = Some (log, pool', σ') →
  pool !! i = Some p →
  ∃ r, trace p (thread_log i log) r.
Proof.
  induction schedule as [|j schedule IH]; intros pool σ log pool' σ' i p Hrun Hp.
  - injection Hrun as <- _ _. destruct p as [a|e|B act k].
    + by exists (Some (Done a)).
    + by exists (Some (Aborted e)).
    + exists None. by left.
  - apply interleave_cons in Hrun
      as (B & act & k & b & σ1 & log1 & Hj & Hdo & Hrest & ->).
    simpl. destruct (decide (i = j)) as [->|Hne].
    + rewrite Hj in Hp. injection Hp as <-.
      destruct (IH _ _ _ _ _ j (k b) Hrest) as [r Hr].
      { apply list_lookup_insert_eq. by eapply lookup_lt_Some. }
      exists r. right. by exists b, (thread_log j log1), σ, σ1.
    + eapply IH; [exact Hrest|]. by rewrite list_lookup_insert_ne.
Qed.

Lemma interleave_entry {A} schedule : ∀ (pool : list (prog A)) σ log pool' σ' j t l,
  interleave schedule pool σ = Some (log, pool', σ') →
  log !! j = Some (t, l) →
  ∃ σa σb B (act : action B) (b : B),
    snd <$> interleave (take j schedule) pool σ = Some σa ∧
    snd <$> interleave (take (S j) schedule) pool σ = Some σb ∧
    do_action act σa = Some (b, σb) ∧
    l = label_of act b.
Proof.
  induction schedule as [|i schedule IH]; intros pool σ log pool' σ' j t l Hrun Hl.
  - injection Hrun as <- _ _. done.
  - apply interleave_cons in Hrun
      as (B & act & k & b & σ1 & log1 & Hi & Hdo & Hrest & ->).
    destruct j as [|j].
    + injection Hl as <- <-. exists σ, σ1, B, act, b.
      split_and!; [done| |done|done].
      simpl. rewrite Hi. simpl. rewrite Hdo. simpl. done.
    + destruct (IH _ _ _ _ _ _ _ _ Hrest Hl) as (σa & σb & B' & act' & b' & Ha & Hb & Hdo' & ->).
      exists σa, σb, B', act', b'. split_and!; [| |done|done].
      * simpl. rewrite Hi. simpl. rewrite Hdo. simpl.
        destruct (interleave (take j schedule) _ σ1) as [[[? ?] ?]|]; [|done].
        simpl in *. done.
      * change (take (S (S j)) (i :: schedule)) with (i :: take (S j) schedule).
        simpl. rewrite Hi. simpl. rewrite Hdo. simpl.
        destruct (interleave (take (S j) schedule) _ σ1) as [[[? ?] ?]|]; [|done].
        simpl in *. done.
Qed.

(** ** The claims *)

(** C1. Sequential FIFO.  A single thread runs any sequence [ops] of pushes
    and pops on a freshly constructed queue.  The run completes and answers
    the operations one by one: a push of [v] completes exactly when its two
    allocations succeed in the state it starts in, and throws otherwise; a
    pop returns.  The answers are those of a first-in first-out queue that
    starts empty: every pop returns the oldest value pushed and not yet
    popped, or null when there is none, and with an allocator that never
    fails the answers are the queue's answers to [ops] themselves.  So the
    values popped so far are, in order, a prefix of the values pushed; any
    [m] further pops return the next [m] of the pushed values in push
    order, then null; and once the queue is drained the sequence of
    non-empty pop results is the sequence of pushed values. *)
Theorem sequential_fifo n ops σ0 σ1 :
  run lock_free_queue σ0 = (Done tt, σ1) →
  ∃ tr σ2 rest,
    run (client (S n) ops) σ1 = (Done tr, σ2) ∧
    pushed_values tr = popped_values tr ++ rest ∧
    (∀ m, ∃ tr' σ3,
      run (client (S n) (repeat Pop m)) σ2 = (Done tr', σ3) ∧
      pushed_values tr' = [] ∧
      popped_values tr' = take m rest ∧
      ((length rest ≤ m)%nat →
       popped_values (tr ++ tr') = pushed_values (tr ++ tr'))) ∧
    Forall2 answers ops tr ∧
    fifo_spec tr [] rest ∧
    (∀ ops1 v ops2, ops = ops1 ++ Push v :: ops2 →
      ∃ tr1 σ',
        run (client (S n) ops1) σ1 = (Done tr1, σ') ∧
        tr1 = take (length ops1) tr ∧
        (tr !! length ops1 = Some (Pushed v) ↔ push_allocates v σ')) ∧
    ((∀ h, is_Some (alloc h)) → tr = fifo_answers ops []).
Proof.
  intros Hnew.
  destruct (lock_free_queue_done _ _ Hnew) as (d & _ & _ & Hs).
  destruct (client_history _ n ops _ _ _ _ _ Hs)
    as (tr & σ2 & k & hp & items & tp & Hrun & Hs2 & Hans & Hfifo & Htotal).
  pose proof (fifo_spec_values _ _ _ Hfifo) as Hv. simpl in Hv.
  exists tr, σ2, (contents items).
  split_and!; [done|done| |done|done| |done].
  - intros m.
    destruct (pops_spec _ n m _ _ _ _ _ Hs2) as (σ3 & k3 & hp3 & tp3 & Hrun3 & _).
    eexists _, σ3. split_and!; [exact Hrun3|apply pushed_values_pops| |].
    + rewrite popped_values_pops. reflexivity.
    + intros Hall.
      rewrite popped_values_app, pushed_values_app.
      rewrite pushed_values_pops, popped_values_pops, app_nil_r.
      rewrite take_ge by (unfold contents in *; lia). symmetry. exact Hv.
  - intros ops1 v ops2 ->.
    destruct (client_history _ n ops1 _ _ _ _ _ Hs)
      as (tr1 & σ' & k1 & hp1 & items1 & tp1 & Hrun1 & Hs1 & Hans1 & _).
    destruct (perform_op_history _ n (Push v) _ _ _ _ _ Hs1)
      as (e & σ'' & k2 & hp2 & items2 & tp2 & Hrune & Hse & _ & _ & _ & Hiff).
    destruct (client_history _ n ops2 _ _ _ _ _ Hse)
      as (tr2 & σ3 & k3 & hp3 & items3 & tp3 & Hrun2 & _).
    rewrite client_app, Hrun1, client_cons, Hrune, Hrun2 in Hrun.
    injection Hrun as <- <-.
    apply Forall2_length in Hans1.
    exists tr1, σ'. split_and!; [done| |].
    + by rewrite Hans1, take_app_length.
    + rewrite Hans1, list_lookup_middle by done.
      rewrite <- (Hiff v eq_refl). split; congruence.
Qed.


(** C3, as amended.  In every interleaved execution, whatever the other
    threads run, a thread that issues pushes and pops follows the release
    rule: each of its data-install compare-exchanges that fails is on the
    node it last claimed on [tail], and its next steps are the release of
    that node: the load of the node's counter and compare-exchanges that
    ask for the observed counter with one taken off the internal count, in
    the 30-bit field; once one succeeds, the next step of the thread is the
    [delete] of the node exactly when the internal count and the external
    holder count it stored are both zero.  A successful compare-exchange
    on a counter replaces that counter, which the node at that address
    held, and changes nothing else; a [delete] removes the live node it
    names and changes nothing else.  So a release that meets no
    interference, on any live node in any state, takes one off the
    internal count and frees the node exactly when both counts are then
    zero. *)
Theorem failed_install_release schedule (pool : list (prog (list obs))) σ
    log pool' σ' i n ops :
  pool !! i = Some (client n ops) →
  interleave schedule pool σ = Some (log, pool', σ') →
  release_rule None (thread_log i log) ∧
  (∀ j t p c d r,
     log !! j = Some (t, LCountCAS p c d (true, r)) →
     ∃ σj a nd,
       snd <$> interleave (take j schedule) pool σ = Some σj ∧
       get_node p σj = Some (a, nd) ∧
       node.count nd = c ∧
       snd <$> interleave (take (S j) schedule) pool σ
         = Some (put_node a (node.mk (node.data nd) d (node.next nd)) σj)) ∧
  (∀ j t a,
     log !! j = Some (t, LDeleteNode (Some a)) →
     ∃ σj nd,
       snd <$> interleave (take j schedule) pool σ = Some σj ∧
       get_node (Some a) σj = Some (a, nd) ∧
       snd <$> interleave (take (S j) schedule) pool σ
         = Some (set_heap (delete a (heap σj)) σj)) ∧
  (∀ m σ0 p a nd,
     get_node p σ0 = Some (a, nd) →
     let internal' :=
       (node_counter.internal_count (node.count nd) - 1) mod internal_modulus in
     let external' := node_counter.external_count (node.count nd) in
     run (release_ref (S m) p) σ0 =
       (Done tt,
        if (internal' =? 0) && (external' =? 0)
        then set_heap (delete a (heap σ0)) σ0
        else put_node a (node.mk (node.data nd)
                                 (node_counter.mk internal' external')
                                 (node.next nd)) σ0)).
Proof.
  intros Hi Hrun. split_and!; cycle 3.
  { intros m σ0 p a nd Hn internal' external'.
    rewrite (release_ref_spec m _ a nd σ0 Hn).
    unfold settle, release_ref_counter, counter_is_zero. simpl.
    by rewrite to_internal_dec. }
  - destruct (interleave_trace _ _ _ _ _ _ _ _ Hrun Hi) as [r Hr].
    pose proof (obeys_client n ops _ _ None Hr) as Hrule.
    destruct r as [[a|e]|]; [|done|done].
    specialize (Hrule [] (λ _, I)). by rewrite app_nil_r in Hrule.
  - intros j t p c d r Hl.
    destruct (interleave_entry _ _ _ _ _ _ _ _ _ Hrun Hl)
      as (σa & σb & B & act & b & Ha & Hb & Hdo & Hlab).
    revert b Hdo Hlab. destruct act; intros b Hdo Hlab; try discriminate Hlab.
    simpl in Hlab. injection Hlab as <- <- <- <-.
    simpl in Hdo. destruct (get_node p σa) as [[a nd]|] eqn:Hn; [|done].
    simpl in Hdo. destruct (decide (node.count nd = c)) as [Hc|Hc]; [|done].
    injection Hdo as _ <-. by exists σa, a, nd.
  - intros j t a Hl.
    destruct (interleave_entry _ _ _ _ _ _ _ _ _ Hrun Hl)
      as (σa & σb & B & act & b & Ha & Hb & Hdo & Hlab).
    revert b Hdo Hlab. destruct act; intros b Hdo Hlab; try discriminate Hlab.
    simpl in Hlab. injection Hlab as <-.
    simpl in Hdo. destruct (heap σa !! a) as [[nd|v]|] eqn:Hn; try done.
    simpl in Hdo. destruct b. injection Hdo as <-. exists σa, nd.
    split_and!; [done| |done]. simpl. by rewrite Hn.
Qed.

(** C4. Tail-dummy invariant.  After any sequence of completed pushes and
    pops on a freshly constructed queue, [tail] names a live node whose
    [data] is null. *)
Theorem tail_is_dummy n ops σ0 σ1 :
  run lock_free_queue σ0 = (Done tt, σ1) →
  ∃ tr σ2 tp nd,
    run (client (S n) ops) σ1 = (Done tr, σ2) ∧
    get_node (counted_node_ptr.ptr (tail σ2)) σ2 = Some (tp, nd) ∧
    node.data nd = None.
Proof.
  intros Hnew.
  destruct (lock_free_queue_done _ _ Hnew) as (d & _ & _ & Hs).
  destruct (client_spec _ n ops _ _ _ _ _ Hs)
    as (tr & σ2 & k & hp & items & tp & Hrun & Hs2 & _).
  destruct Hs2 as [_ Ht Hc _ _ _].
  apply chain_tail in Hc.
  exists tr, σ2, tp. eexists. split_and!; [exact Hrun| |].
  - rewrite Ht. simpl. rewrite Hc. reflexivity.
  - reflexivity.
Qed.

(** C5. One-element boundary.  On a fresh queue, after one completed
    [push(v)], the first pop returns a pointer to a copy of [v] and the
    next pop returns null. *)
Theorem one_element_boundary n v σ0 σ1 σ2 :
  run lock_free_queue σ0 = (Done tt, σ1) →
  run (push (S n) v) σ1 = (Done tt, σ2) →
  ∃ a σ3 σ4,
    run (pop (S n)) σ2 = (Done (Some a), σ3) ∧
    get_value (Some a) σ3 = Some (a, v) ∧
    run (pop (S n)) σ3 = (Done None, σ4).
Proof.
  intros Hnew Hpush.
  destruct (lock_free_queue_done _ _ Hnew) as (d & _ & _ & Hs).
  destruct (push_done _ _ _ _ _ _ _ _ _ Hs Hpush) as (a & nn & Hs2).
  simpl in Hs2.
  destruct (pop_spec _ n _ _ _ _ _ _ _ _ Hs2) as [Hrun3 Hs3].
  destruct (pop_empty_spec _ n _ _ _ _ Hs3) as [Hrun4 _].
  pose proof (shape_value_fresh _ _ _ _ _ _ _ _ _ Hs2) as Hfa.
  destruct (shape_delete_value _ _ _ _ _ _ _ _ Hs3 Hfa) as [Hl _].
  do 3 eexists. split_and!; [exact Hrun3| |exact Hrun4].
  simpl in *. by rewrite Hl.
Qed.

(** C6. Empty observability.  A pop on a freshly constructed queue returns
    null.  It leaves [tail] and the node's [data], [next] and external
    holder count as they were; what changes is the claim count of the
    [head] slot, from 1 to 2, and the node's internal count, from 0 to
    [2^30 - 1]. *)
Theorem pop_on_fresh_queue n σ0 σ1 :
  run lock_free_queue σ0 = (Done tt, σ1) →
  ∃ d,
    head σ1 = counted_node_ptr.mk 1 (Some d) ∧
    heap σ1 !! d = Some (dummy_node 0) ∧
    run (pop (S n)) σ1 =
      (Done None,
       mk_state (counted_node_ptr.mk 2 (Some d)) (tail σ1)
                (<[d := dummy_node (internal_modulus - 1)]> (heap σ1))).
Proof.
  intros Hnew.
  destruct (lock_free_queue_done _ _ Hnew) as (d & Hσ1 & _ & Hs).
  destruct (pop_empty_spec _ n _ _ _ _ Hs) as [Hrun _].
  exists d. split_and!.
  - by rewrite Hσ1.
  - rewrite Hσ1. simpl. by rewrite lookup_insert_eq.
  - exact Hrun.
Qed.

(** C7. Destructor drain.  Let a queue hold the values [rest] after any
    sequence of completed operations, and let the fuel exceed their
    number.  The loop of the destructor ends in the state that
    [length rest + 1] consumer pops lead to, pops that return the values
    of [rest] in order and then null; in that state the queue owns one
    node, a dummy.  The destructor then frees that node, and the heap is
    again what it was before the queue was constructed. *)
Theorem destructor_drains n ops σ0 σ1 :
  run lock_free_queue σ0 = (Done tt, σ1) →
  ∃ tr σ2 rest,
    run (client (S n) ops) σ1 = (Done tr, σ2) ∧
    pushed_values tr = popped_values tr ++ rest ∧
    ∀ f, (length rest < S f)%nat →
      ∃ σe σ3 tp c,
        run (drain (S f)) σ2 = (Done tt, σe) ∧
        run (client (S f) (repeat Pop (S (length rest)))) σ2 =
          (Done (map (λ v, Popped (Some v)) rest ++ [Popped None]), σe) ∧
        counted_node_ptr.ptr (head σe) = Some tp ∧
        heap σe = <[tp := dummy_node c]> (heap σ0) ∧
        heap σ0 !! tp = None ∧
        run (lock_free_queue_destructor (S f)) σ2 = (Done tt, σ3) ∧
        heap σ3 = heap σ0.
Proof.
  intros Hnew.
  destruct (lock_free_queue_done _ _ Hnew) as (d & _ & _ & Hs).
  destruct (client_spec _ n ops _ _ _ _ _ Hs)
    as (tr & σ2 & k & hp & items & tp & Hrun & Hs2 & Hv).
  exists tr, σ2, (contents items). split_and!; [done|done|].
  intros f Hf.
  destruct (destructor_spec _ f _ _ _ _ _ Hs2)
    as (σe & σ3 & c & H1 & H2 & H3 & H4 & H5 & H6 & H7).
  { unfold contents in Hf. by rewrite length_map in Hf. }
  exists σe, σ3, tp, c. unfold contents in *. rewrite length_map.
  split_and!; done.
Qed.

(** C8. Allocation-failure atomicity of push.  The first two actions of
    [push] are the two allocations, and the only action on the path of a
    failed second allocation is the release of the first.  In every state,
    a push whose first or second allocation fails ends with
    [std::bad_alloc] and leaves the state as it found it. *)
Theorem push_allocation_failure n v σ :
  (alloc (heap σ) = None → run (push n v) σ = (Aborted bad_alloc, σ)) ∧
  (∀ a, alloc (heap σ) = Some a → alloc (<[a := CVal v]> (heap σ)) = None →
        run (push n v) σ = (Aborted bad_alloc, σ)) ∧
  ∃ k, push n v = Act (NewValue v) k ∧
       k None = Throw bad_alloc ∧
       ∀ a, ∃ k', k (Some a) = Act NewNode k' ∧
                  k' None = Act (DeleteValue (Some a)) (λ _, Throw bad_alloc).
Proof.
  split_and!.
  - apply push_bad_alloc_value.
  - apply push_bad_alloc_node.
  - eexists. split; [reflexivity|]. split; [reflexivity|].
    intros a. eexists. split; reflexivity.
Qed.

(** C10. Modular counter arithmetic.  Both counter updates store their
    results in the bit-fields, modulo [2^30] and modulo [4].  On a node
    whose internal count is 0, [release_ref] stores the internal count
    [2^30 - 1] and keeps the node; [free_external_counter] stores the sum
    of the internal count and [external_count - 2] reduced modulo [2^30]. *)
Theorem counters_wrap n σ p a d e nx c b nd :
  get_node p σ = Some (a, node.mk d (node_counter.mk 0 e) nx) →
  get_node (counted_node_ptr.ptr c) σ = Some (b, nd) →
  run (release_ref (S n) p) σ =
    (Done tt, put_node a (node.mk d (node_counter.mk (2 ^ 30 - 1) e) nx) σ) ∧
  run (free_external_counter (S n) c) σ =
    (Done tt,
     settle b nd
       (node_counter.mk
          ((node_counter.internal_count (node.count nd)
            + (counted_node_ptr.external_count c - 2)) mod 2 ^ 30)
          ((node_counter.external_count (node.count nd) - 1) mod 4)) σ) ∧
  (∀ c0, 0 ≤ node_counter.internal_count (release_ref_counter c0) < 2 ^ 30 ∧
         node_counter.internal_count (release_ref_counter c0)
         = (node_counter.internal_count c0 - 1) mod 2 ^ 30) ∧
  (∀ c0 count_increase,
     0 ≤ node_counter.internal_count
           (free_external_counter_counter c0 count_increase) < 2 ^ 30 ∧
     0 ≤ node_counter.external_count
           (free_external_counter_counter c0 count_increase) < 4 ∧
     node_counter.internal_count (free_external_counter_counter c0 count_increase)
     = (node_counter.internal_count c0 + count_increase) mod 2 ^ 30 ∧
     node_counter.external_count (free_external_counter_counter c0 count_increase)
     = (node_counter.external_count c0 - 1) mod 4).
Proof.
  intros Hp Hc. split_and!.
  - rewrite (release_ref_spec n p a _ σ Hp). reflexivity.
  - rewrite (free_external_counter_spec n c b nd σ Hc).
    unfold free_external_counter_counter.
    rewrite to_internal_sum, to_external_dec. reflexivity.
  - intros c0. simpl. split; [apply to_internal_range|apply to_internal_dec].
  - intros c0 count_increase. simpl.
    split; [apply to_internal_range|].
    split; [apply to_external_range|].
    split; [wrap_arith|apply to_external_dec].
Qed.

(** ** Further properties of the code *)

Lemma push_attempt_blocked n new_data new_next σ a nd :
  get_node (counted_node_ptr.ptr (tail σ)) σ = Some (a, nd) →
  node.data nd ≠ None →
  node_counter.external_count (node.count nd) ≠ 0 →
  let claimed :=
    counted_node_ptr.mk (claim (counted_node_ptr.external_count (tail σ)))
                        (counted_node_ptr.ptr (tail σ)) in
  run (push_attempt (S n) new_data new_next (tail σ)) σ =
    (Done (inl claimed),
     put_node a (node.mk (node.data nd) (release_ref_counter (node.count nd))
                         (node.next nd))
              (set_slot Tail claimed σ)).
Proof.
  intros Hn Hdata Hext claimed.
  destruct (get_node_Some _ _ _ _ Hn) as [Hp Hl].
  unfold push_attempt. exec.
  rewrite increase_external_count_spec by done. exec.
  simpl. rewrite Hp. simpl. rewrite Hl. simpl.
  rewrite decide_False by done. exec.
  erewrite release_ref_spec; cycle 1.
  { apply get_node_lookup. simpl. exact Hl. }
  exec. unfold settle, counter_is_zero. simpl.
  apply Z.eqb_neq in Hext. rewrite Hext, andb_false_r.
  unfold claimed, claim. by rewrite Hp.
Qed.

Lemma push_loop_blocked n new_data new_next m : ∀ σ a nd,
  get_node (counted_node_ptr.ptr (tail σ)) σ = Some (a, nd) →
  node.data nd ≠ None →
  node_counter.external_count (node.count nd) ≠ 0 →
  ∃ σ' nd',
    run (loop m (push_attempt (S n) new_data new_next) (tail σ)) σ
      = (Aborted out_of_fuel, σ') ∧
    get_node (counted_node_ptr.ptr (tail σ')) σ' = Some (a, nd') ∧
    node.data nd' = node.data nd ∧
    head σ' = head σ.
Proof.
  induction m as [|m IH]; intros σ a nd Hn Hdata Hext.
  - exists σ, nd. split_and!; done.
  - destruct (get_node_Some _ _ _ _ Hn) as [Hp Hl].
    exec. rewrite (push_attempt_blocked n _ _ σ a nd) by done. exec.
    set (claimed := counted_node_ptr.mk _ _).
    set (nd1 := node.mk _ _ _).
    destruct (IH (put_node a nd1 (set_slot Tail claimed σ)) a nd1)
      as (σ' & nd' & Hrun & Hn' & Hd' & Hh'); try done.
    { simpl. rewrite Hp. simpl. by rewrite lookup_insert_eq. }
    exists σ', nd'. split_and!; done.
Qed.

Lemma shape_dom frame σ k hp items tp :
  shape frame σ k hp items tp →
  dom (heap σ) = dom frame ∪ list_to_set (footprint hp items).
Proof.
  intros [_ _ Hc _ Hfr Hdj]. apply set_eq. intros x.
  rewrite elem_of_union, !elem_of_dom, elem_of_list_to_set.
  destruct (decide (x ∈ footprint hp items)) as [Hin|Hnin].
  - split; [by right|]. intros _. by eapply chain_allocated.
  - rewrite (Hfr x Hnin). tauto.
Qed.

Lemma length_footprint hp items :
  length (footprint hp items) = S (2 * length items).
Proof.
  revert hp. induction items as [|[[a v] nx] items IH]; intros hp; simpl; [done|].
  rewrite IH. lia.
Qed.

Lemma shape_size frame σ k hp items tp :
  shape frame σ k hp items tp →
  size (heap σ) = (size frame + S (2 * length items))%nat.
Proof.
  intros Hs. pose proof (shape_dom _ _ _ _ _ _ Hs) as Hdom.
  destruct Hs as [_ _ _ Hnd _ Hdj].
  rewrite <- (size_dom (D:=gset addr) (heap σ)), Hdom, size_union.
  - by rewrite size_dom, size_list_to_set, length_footprint.
  - intros x Hx1 Hx2. rewrite elem_of_list_to_set in Hx2.
    apply Hdj in Hx2. apply elem_of_dom in Hx1 as [? Hx1]. congruence.
Qed.

Lemma contents_nil items : contents items = [] ↔ items = [].
Proof. unfold contents. destruct items; simpl; split; congruence. Qed.

Lemma shape_head_tail frame σ k hp items tp :
  shape frame σ k hp items tp → (hp = tp ↔ items = []).
Proof.
  intros Hs. split.
  - intros ->. destruct items as [|[[a v] nx] items]; [done|].
    destruct Hs as [_ _ (_ & _ & Hc) Hnd _ _].
    apply chain_tail_in in Hc. apply NoDup_cons in Hnd as [Hnin _].
    exfalso. apply Hnin. rewrite elem_of_cons. eauto.
  - intros ->. by eapply shape_empty_head.
Qed.

Lemma iter_claim k e : to_int (Nat.iter k claim e) = to_int (e + Z.of_nat k).
Proof.
  induction k as [|k IH]; simpl.
  - f_equal. lia.
  - unfold claim in *. wrap_arith.
Qed.

Lemma iter_release_ref_counter k c :
  to_internal (node_counter.internal_count (Nat.iter k release_ref_counter c))
  = to_internal (node_counter.internal_count c - Z.of_nat k) ∧
  node_counter.external_count (Nat.iter k release_ref_counter c)
  = node_counter.external_count c.
Proof.
  induction k as [|k [IH1 IH2]]; simpl.
  - split; [f_equal; lia|done].
  - split; [|done]. wrap_arith.
Qed.

(** X1. [increase_external_count] claims the current value of the slot,
    whatever [old_counter] it is given: when that is stale, the first
    compare-exchange fails and reloads, and the second succeeds.  The slot
    keeps its pointer and its claim count goes up by one. *)
Theorem increase_external_count_claims_current n s old σ :
  let claimed :=
    counted_node_ptr.mk (claim (counted_node_ptr.external_count (get_slot s σ)))
                        (counted_node_ptr.ptr (get_slot s σ)) in
  run (increase_external_count (S (S n)) s old) σ = (Done claimed, set_slot s claimed σ).
Proof.
  intros claimed. unfold increase_external_count. exec.
  rewrite increase_external_count_try_spec.
  destruct (decide (get_slot s σ = old)) as [<-|Hne]; exec; [reflexivity|].
  rewrite increase_external_count_try_spec, decide_True by done.
  exec. reflexivity.
Qed.

(** X2. Observed-empty is decided by [head] and [tail] alone.  When both
    name the same live node, [pop] returns null whether or not the node
    already holds a value (a producer has installed it and not yet moved
    [tail]): the value stays where it is, and only the claim count of
    [head] and the internal count of the node change. *)
Theorem pop_when_head_is_tail n σ a nd :
  counted_node_ptr.ptr (head σ) = counted_node_ptr.ptr (tail σ) →
  get_node (counted_node_ptr.ptr (head σ)) σ = Some (a, nd) →
  node_counter.external_count (node.count nd) ≠ 0 →
  let claimed :=
    counted_node_ptr.mk (claim (counted_node_ptr.external_count (head σ)))
                        (counted_node_ptr.ptr (head σ)) in
  run (pop (S n)) σ =
    (Done None,
     put_node a
       (node.mk (node.data nd)
                (node_counter.mk
                   ((node_counter.internal_count (node.count nd) - 1)
                      mod internal_modulus)
                   (node_counter.external_count (node.count nd)))
                (node.next nd))
       (set_slot Head claimed σ)).
Proof.
  intros Heq Hn Hext claimed.
  destruct (get_node_Some _ _ _ _ Hn) as [Hp Hl].
  unfold pop, pop_attempt. exec. simpl.
  exec. rewrite increase_external_count_spec by reflexivity.
  exec. simpl. rewrite decide_True by done.
  exec. erewrite release_ref_spec; cycle 1.
  { simpl. rewrite Hp. apply get_node_lookup. simpl. exact Hl. }
  exec. unfold settle, release_ref_counter, counter_is_zero. simpl.
  apply Z.eqb_neq in Hext. rewrite Hext, andb_false_r, to_internal_dec.
  reflexivity.
Qed.

(** X3. A push does not complete while another producer is between its
    install and its exchange of [tail].  Run alone on a state whose tail
    node already holds a value, [push] claims the node, fails to install,
    releases and retries, for as many iterations as it is given: whatever
    the bound, the loop is still running when the bound is reached, and
    the installed value and [head] are as they were. *)
Theorem push_waits_for_linker n v σ a nd av an :
  get_node (counted_node_ptr.ptr (tail σ)) σ = Some (a, nd) →
  node.data nd ≠ None →
  node_counter.external_count (node.count nd) ≠ 0 →
  alloc (heap σ) = Some av →
  alloc (<[av := CVal v]> (heap σ)) = Some an →
  ∃ σ' nd',
    run (push n v) σ = (Aborted out_of_fuel, σ') ∧
    get_node (counted_node_ptr.ptr (tail σ')) σ' = Some (a, nd') ∧
    node.data nd' = node.data nd ∧
    head σ' = head σ.
Proof.
  intros Hn Hdata Hext Hav Han.
  destruct (get_node_Some _ _ _ _ Hn) as [Hp Hl].
  pose proof (alloc_fresh _ _ Hav) as Hfa.
  pose proof (alloc_fresh _ _ Han) as Hfn.
  apply lookup_insert_None in Hfn as [Hfn Hne].
  assert (a ≠ av) as Haav by (intros ->; congruence).
  assert (a ≠ an) as Haan by (intros ->; congruence).
  unfold push. exec. simpl. rewrite Hav. exec. simpl. rewrite Han. exec. simpl.
  set (σa := put_node an new_node (set_heap (<[av := CVal v]> (heap σ)) σ)).
  assert (get_node (counted_node_ptr.ptr (tail σa)) σa = Some (a, nd)) as Hna.
  { simpl. rewrite Hp. simpl. by rewrite !lookup_insert_ne, Hl by done. }
  destruct n as [|n].
  - exists σa, nd. split_and!; done.
  - destruct (push_loop_blocked n (Some av) (counted_node_ptr.mk 1 (Some an))
                (S n) σa a nd Hna Hdata Hext)
      as (σ' & nd' & Hrun & Hn' & Hd' & Hh').
    exists σ', nd'. split_and!; done.
Qed.

(** X4. Memory accounting.  After any sequence of completed pushes and
    pops on a fresh queue, the heap holds, beyond what it held before the
    constructor ran, one node and, for every value still in the queue, one
    node and one copy of the value: nothing leaks and nothing else is
    allocated. *)
Theorem queue_footprint n ops σ0 σ1 :
  run lock_free_queue σ0 = (Done tt, σ1) →
  ∃ tr σ2 rest,
    run (client (S n) ops) σ1 = (Done tr, σ2) ∧
    pushed_values tr = popped_values tr ++ rest ∧
    size (heap σ2) = (size (heap σ0) + 1 + 2 * length rest)%nat.
Proof.
  intros Hnew.
  destruct (lock_free_queue_done _ _ Hnew) as (d & _ & _ & Hs).
  destruct (client_spec _ n ops _ _ _ _ _ Hs)
    as (tr & σ2 & k & hp & items & tp & Hrun & Hs2 & Hv).
  exists tr, σ2, (contents items). split_and!; [done|done|].
  rewrite (shape_size _ _ _ _ _ _ Hs2). unfold contents. rewrite length_map. lia.
Qed.

(** X5. The emptiness test is exact between operations.  After any
    sequence of completed pushes and pops on a fresh queue, [head] names a
    live node, [tail] carries the claim count 1, and [head] and [tail]
    name the same node exactly when the queue holds no value. *)
Theorem emptiness_test_exact n ops σ0 σ1 :
  run lock_free_queue σ0 = (Done tt, σ1) →
  ∃ tr σ2 rest,
    run (client (S n) ops) σ1 = (Done tr, σ2) ∧
    pushed_values tr = popped_values tr ++ rest ∧
    is_Some (get_node (counted_node_ptr.ptr (head σ2)) σ2) ∧
    counted_node_ptr.external_count (tail σ2) = 1 ∧
    (counted_node_ptr.ptr (head σ2) = counted_node_ptr.ptr (tail σ2) ↔ rest = []).
Proof.
  intros Hnew.
  destruct (lock_free_queue_done _ _ Hnew) as (d & _ & _ & Hs).
  destruct (client_spec _ n ops _ _ _ _ _ Hs)
    as (tr & σ2 & k & hp & items & tp & Hrun & Hs2 & Hv).
  exists tr, σ2, (contents items). split_and!; [done|done| | |].
  - destruct Hs2 as [Hh _ Hc _ _ _]. rewrite Hh. simpl.
    destruct items as [|[[a v] nx] items]; simpl in Hc.
    + destruct Hc as [-> Hl]. rewrite Hl. eauto.
    + destruct Hc as (Hl & _). rewrite Hl. eauto.
  - by destruct Hs2 as [_ -> _ _ _ _].
  - rewrite contents_nil, <- (shape_head_tail _ _ _ _ _ _ Hs2).
    destruct Hs2 as [-> -> _ _ _ _]. simpl. split; congruence.
Qed.

(** X6. What a successful pop does to memory.  After any sequence of
    completed operations that leaves a value [v] at the front, [pop]
    returns the address stored in the head node, where a copy of [v]
    lives; it deletes the head node and nothing else, makes [head] the
    [next] of that node, and leaves [tail] alone.  The copy of the value
    stays allocated: it is the caller's. *)
Theorem pop_unlinks_head n ops σ0 σ1 :
  run lock_free_queue σ0 = (Done tt, σ1) →
  ∃ tr σ2 rest,
    run (client (S n) ops) σ1 = (Done tr, σ2) ∧
    pushed_values tr = popped_values tr ++ rest ∧
    ∀ v rest', rest = v :: rest' →
      ∃ hp nd a,
        get_node (counted_node_ptr.ptr (head σ2)) σ2 = Some (hp, nd) ∧
        node.data nd = Some a ∧
        heap σ2 !! a = Some (CVal v) ∧
        run (pop (S n)) σ2 =
          (Done (Some a), mk_state (node.next nd) (tail σ2) (delete hp (heap σ2))) ∧
        a ≠ hp.
Proof.
  intros Hnew.
  destruct (lock_free_queue_done _ _ Hnew) as (d & _ & _ & Hs).
  destruct (client_spec _ n ops _ _ _ _ _ Hs)
    as (tr & σ2 & k & hp & items & tp & Hrun & Hs2 & Hv).
  exists tr, σ2, (contents items). split_and!; [done|done|].
  intros v rest' Hrest.
  destruct items as [|[[a v'] nx] items]; [discriminate|].
  unfold contents in Hrest. simpl in Hrest. injection Hrest as -> _.
  destruct (pop_spec _ n _ _ _ _ _ _ _ _ Hs2) as [Hpop _].
  destruct Hs2 as [Hh _ (Hl & Ha & _) Hnd _ _].
  exists hp. eexists. exists a. split_and!.
  - rewrite Hh. simpl. rewrite Hl. reflexivity.
  - reflexivity.
  - exact Ha.
  - exact Hpop.
  - intros ->. apply NoDup_cons in Hnd as [Hnin _]. apply Hnin.
    rewrite elem_of_cons. eauto.
Qed.

(** X7. A release and the retirement of a slot commute on the counter of
    a node: the counter they leave does not depend on which of the two
    compare-exchanges comes first. *)
Theorem counter_updates_commute c count_increase :
  free_external_counter_counter (release_ref_counter c) count_increase
  = release_ref_counter (free_external_counter_counter c count_increase).
Proof.
  unfold free_external_counter_counter, release_ref_counter. simpl.
  f_equal. wrap_arith.
Qed.

(** X8. Claims and releases cancel.  A slot is published with the claim
    count 1.  When it has been claimed [k + 1] times, [k] of the claimants
    have released the node and the last one retires the slot, the internal
    count of the node is what it was before (in its bit-field) and the node
    has one holder less. *)
Theorem claims_and_releases_cancel (k : nat) c :
  free_external_counter_counter
    (Nat.iter k release_ref_counter c)
    (to_int (Nat.iter (S k) claim 1 - 2))
  = node_counter.mk
      (node_counter.internal_count c mod internal_modulus)
      ((node_counter.external_count c - 1) mod external_modulus).
Proof.
  destruct (iter_release_ref_counter k c) as [Hint Hext].
  pose proof (iter_claim (S k) 1) as Hclaim.
  unfold free_external_counter_counter. rewrite Hext, to_external_dec.
  f_equal.
  generalize dependent (node_counter.internal_count (Nat.iter k release_ref_counter c)).
  generalize dependent (Nat.iter (S k) claim 1).
  intros e He i Hi. rewrite Nat2Z.inj_succ in He.
  wrap_arith.
Qed.

End Queue.

Arguments Ret {T A} a.
Arguments Throw {T A} f.
Arguments Act {T A B} act k.

(** ** The test driver *)

Lemma elem_of_seqZ_bounds m n i : i ∈ seqZ m n → m ≤ i < m + n.
Proof. rewrite elem_of_seqZ. done. Qed.

Lemma producer_values_range items_per_producer p :
  0 ≤ p → 0 ≤ items_per_producer →
  (p + 1) * items_per_producer ≤ INT_MAX →
  producer_values items_per_producer p
  = seqZ (p * items_per_producer) items_per_producer.
Proof.
  intros Hp Hi Hmax. unfold producer_values. cbv zeta.
  assert (0 ≤ p * items_per_producer) by nia.
  unfold INT_MAX in Hmax.
  rewrite to_int_small by (unfold INT_MIN, INT_MAX; nia).
  replace (seqZ (p * items_per_producer) items_per_producer)
    with (seqZ (p * items_per_producer + 0) items_per_producer)
    by (f_equal; lia).
  rewrite <- fmap_add_seqZ. apply list_fmap_ext.
  intros k i Hk. apply list_elem_of_lookup_2, elem_of_seqZ_bounds in Hk.
  apply to_int_small. unfold INT_MIN, INT_MAX. nia.
Qed.

Lemma all_producer_values_range_nat items_per_producer (m : nat) :
  0 ≤ items_per_producer →
  Z.of_nat m * items_per_producer ≤ INT_MAX →
  all_producer_values (Z.of_nat m) items_per_producer
  = seqZ 0 (Z.of_nat m * items_per_producer).
Proof.
  intros Hi. unfold all_producer_values.
  induction m as [|m IH]; intros Hmax; [done|].
  rewrite seqZ_S, fmap_app, concat_app, IH by nia.
  simpl concat. rewrite app_nil_r, Z.add_0_l, producer_values_range by nia.
  replace (Z.of_nat (S m) * items_per_producer)
    with (Z.of_nat m * items_per_producer + items_per_producer) by lia.
  rewrite seqZ_app by nia. done.
Qed.

Lemma all_producer_values_range num_producers items_per_producer :
  0 ≤ num_producers → 0 ≤ items_per_producer →
  num_producers * items_per_producer ≤ INT_MAX →
  all_producer_values num_producers items_per_producer
  = seqZ 0 (num_producers * items_per_producer).
Proof.
  intros Hn Hi Hmax. rewrite <- (Z2Nat.id num_producers) by done.
  apply all_producer_values_range_nat; [done|]. by rewrite Z2Nat.id.
Qed.

Lemma consumed_spec popped :
  Z.of_nat (length popped) ≤ INT_MAX →
  consumed popped
  = TestResults.mk (Z.of_nat (length popped)) (list_to_set popped).
Proof.
  unfold consumed.
  assert (∀ results,
    0 ≤ TestResults.successful_pops results →
    TestResults.successful_pops results + Z.of_nat (length popped) ≤ INT_MAX →
    foldl (λ results value, successful_pop value results) results popped
    = TestResults.mk
        (TestResults.successful_pops results + Z.of_nat (length popped))
        (list_to_set popped ∪ TestResults.popped_values results)) as Hgen.
  { induction popped as [|v popped IH]; intros [c s] Hc Hmax; simpl in *.
    - f_equal; [lia|]. by rewrite (left_id_L ∅ (∪)).
    - rewrite IH; simpl.
      + rewrite to_int_small by (unfold INT_MIN, INT_MAX in *; lia).
        f_equal; [lia|].
        by rewrite (assoc_L (∪)), (comm_L (∪) (list_to_set popped)).
      + rewrite to_int_small by (unfold INT_MIN, INT_MAX in *; lia). lia.
      + rewrite to_int_small by (unfold INT_MIN, INT_MAX in *; lia). lia. }
  intros Hlen. rewrite Hgen; simpl; [|lia|lia].
  f_equal. by rewrite (right_id_L ∅ (∪)).
Qed.

Lemma size_list_to_set_le (l : list Z) :
  (size (list_to_set (C:=gset Z) l) ≤ length l)%nat.
Proof.
  induction l as [|x l IH]; simpl; [done|].
  rewrite size_union_alt, size_singleton.
  assert (size (list_to_set (C:=gset Z) l ∖ {[x]}) ≤ size (list_to_set (C:=gset Z) l))%nat
    by apply subseteq_size, subseteq_difference_l, reflexivity.
  lia.
Qed.

Lemma size_list_to_set_NoDup (l : list Z) :
  size (list_to_set (C:=gset Z) l) = length l → NoDup l.
Proof.
  induction l as [|x l IH]; simpl; [constructor|].
  intros Hsize. pose proof (size_list_to_set_le l) as Hle.
  destruct (decide (x ∈ l)) as [Hin|Hnin].
  - exfalso.
    assert ({[x]} ∪ list_to_set (C:=gset Z) l = list_to_set l) as Heq.
    { apply subseteq_union_1_L, singleton_subseteq_l, elem_of_list_to_set, Hin. }
    rewrite Heq in Hsize. lia.
  - rewrite size_union, size_singleton in Hsize
      by (apply disjoint_singleton_l; by rewrite elem_of_list_to_set).
    constructor; [done|]. apply IH. lia.
Qed.

(** X9. The producers of the test push pairwise distinct values that cover
    a range: producer [p] pushes [p * items_per_producer, ...,
    (p + 1) * items_per_producer - 1] in increasing order, and together
    the producers push every number from 0 to [total_items - 1] once, as
    long as [total_items] fits an [int]. *)
Theorem producers_cover_range num_producers items_per_producer :
  0 ≤ num_producers → 0 ≤ items_per_producer →
  num_producers * items_per_producer ≤ INT_MAX →
  all_producer_values num_producers items_per_producer
    = seqZ 0 (num_producers * items_per_producer) ∧
  NoDup (all_producer_values num_producers items_per_producer) ∧
  (∀ p, 0 ≤ p < num_producers →
        producer_values items_per_producer p
        = seqZ (p * items_per_producer) items_per_producer).
Proof.
  intros Hn Hi Hmax.
  rewrite all_producer_values_range by done.
  split_and!; [done|apply NoDup_seqZ|].
  intros p Hp. apply producer_values_range; [lia|done|nia].
Qed.

(** X10. The verification at the end of the test passes exactly when every
    pushed value was popped once.  For any list of popped values that the
    producers pushed, the two assertions (the count of successful pops and
    the size of the set of popped values both equal [total_items]) hold if
    and only if the popped values are a rearrangement of the pushed ones: a
    lost or a duplicated value fails one of them. *)
Theorem verification_exact num_producers items_per_producer popped :
  0 ≤ num_producers → 0 ≤ items_per_producer →
  num_producers * items_per_producer ≤ INT_MAX →
  Z.of_nat (length popped) ≤ INT_MAX →
  (∀ v, v ∈ popped → v ∈ all_producer_values num_producers items_per_producer) →
  verification (to_int (num_producers * items_per_producer)) (consumed popped) = true
  ↔ popped ≡ₚ all_producer_values num_producers items_per_producer.
Proof.
  intros Hn Hi Hmax Hlen Hsub.
  rewrite all_producer_values_range in * by done.
  assert (0 ≤ num_producers * items_per_producer) as Htot by nia.
  rewrite consumed_spec by done.
  rewrite to_int_small by (unfold INT_MIN, INT_MAX in *; lia).
  unfold verification. simpl.
  rewrite Z.mod_small by (unfold INT_MAX in *; lia).
  rewrite andb_true_iff, !Z.eqb_eq.
  split.
  - intros [Hcount Hsize].
    apply submseteq_length_Permutation.
    + apply NoDup_submseteq; [|done].
      apply size_list_to_set_NoDup. lia.
    + rewrite length_seqZ. lia.
  - intros Hperm. rewrite Hperm at 1.
    assert (list_to_set (C:=gset Z) popped
            = list_to_set (seqZ 0 (num_producers * items_per_producer))) as ->.
    { apply set_eq. intros x. rewrite !elem_of_list_to_set. by rewrite Hperm. }
    rewrite size_list_to_set by apply NoDup_seqZ.
    rewrite length_seqZ. lia.
Qed.

(** ** The concrete instance *)

Lemma first_fit_fresh h a : first_fit h = Some a → h !! a = None.
Proof. intros [= <-]. apply not_elem_of_dom, is_fresh. Qed.

Lemma bounded_fit_fresh limit h a : bounded_fit limit h = Some a → h !! a = None.
Proof.
  unfold bounded_fit. destruct (decide _); [apply first_fit_fresh|discriminate].
Qed.

Lemma fresh_queue_constructed :
  run first_fit lock_free_queue no_queue = (Done tt, fresh_queue).
Proof. vm_compute. reflexivity. Qed.

(** Witness of C1: eight operations on the queue that the constructor
    builds in the empty heap, with an allocator that never fails.  Every
    push completes, and the pops return 7, null, 8, 9, null. *)
Lemma sequential_fifo_witness :
  run first_fit lock_free_queue no_queue = (Done tt, fresh_queue) ∧
  ∃ σ2,
    run first_fit
        (client 1 [Push 7; Pop; Pop; Push 8; Push 9; Pop; Pop; Pop]%nat) fresh_queue
    = (Done [Pushed 7; Popped (Some 7); Popped None; Pushed 8; Pushed 9;
             Popped (Some 8); Popped (Some 9); Popped None]%nat, σ2).
Proof.
  split; [vm_compute; reflexivity|].
  destruct (sequential_fifo first_fit first_fit_fresh 0
              [Push 7; Pop; Pop; Push 8; Push 9; Pop; Pop; Pop]%nat
              no_queue fresh_queue)
    as (tr & σ2 & rest & Hrun & _ & _ & _ & _ & _ & Htotal).
  - vm_compute. reflexivity.
  - exists σ2. rewrite Hrun.
    rewrite (Htotal (λ h, ex_intro _ (fresh (dom h)) eq_refl)). reflexivity.
Defined.


(** Witness of C3 as amended, on three executions.  [half_pushed_queue]
    is where the first five steps of a push of 7 leave [fresh_queue].
    Under [freeing], thread 1 fails to install on node 1 and its release
    stores the counter (0, 0): its next step deletes the node, which is
    gone at the end.  Under [race], its release stores (0, 1): the node is
    kept and its next step is the claim of the next attempt. *)
Lemma failed_install_release_witness :
  snd <$> interleave first_fit half_push [push 1 7%nat] fresh_queue
    = Some half_pushed_queue ∧
  (∃ log σ,
     interleave first_fit freeing
       [client 2 [Push 1%nat]; client 2 [Push 2%nat]; client 2 [Pop]] fresh_queue
     = Some (log, [Ret [Pushed 1%nat]; Ret [Pushed 2%nat];
                   Ret [Popped (Some 1%nat)]], σ) ∧
     thread_log 1 log = freeing_steps_of_thread_1 ∧
     release_rule None (thread_log 1 log) ∧
     heap σ !! 1%positive = None) ∧
  (∃ log σ,
     interleave first_fit race
       [client 2 [Push 1%nat]; client 2 [Push 2%nat]] fresh_queue
     = Some (log, [Ret [Pushed 1%nat]; Ret [Pushed 2%nat]], σ) ∧
     thread_log 1 log = race_steps_of_thread_1 ∧
     release_rule None (thread_log 1 log) ∧
     get_node (Some 1%positive) σ
       = Some (1%positive,
               node.mk (Some 2%positive) (node_counter.mk 0 1)
                       (counted_node_ptr.mk 1 (Some 3%positive)))).
Proof.
  split; [vm_compute; reflexivity|]. split.
  - eexists _, _. split; [vm_compute; reflexivity|].
    split; [vm_compute; reflexivity|]. split; [|vm_compute; reflexivity].
    eapply proj1,
      (failed_install_release first_fit freeing
         [client 2 [Push 1%nat]; client 2 [Push 2%nat]; client 2 [Pop]]
         fresh_queue _ _ _ 1%nat 2%nat [Push 2%nat]).
    + reflexivity.
    + vm_compute. reflexivity.
  - eexists _, _. split; [vm_compute; reflexivity|].
    split; [vm_compute; reflexivity|]. split; [|vm_compute; reflexivity].
    eapply proj1,
      (failed_install_release first_fit race
         [client 2 [Push 1%nat]; client 2 [Push 2%nat]]
         fresh_queue _ _ _ 1%nat 2%nat [Push 2%nat]).
    + reflexivity.
    + vm_compute. reflexivity.
Defined.

(** Counterexample to C3 as stated.  In the race of two producers, thread 1
    fails to install on node 1 and releases its claim; the release brings
    the internal count of node 1 to zero, and the node is not freed: the
    next step of thread 1 is the claim of its next attempt, and at the end
    node 1 is live, with counter (0, 1) and the value of thread 0. *)
Lemma failed_install_release_counterexample :
  ∃ log σ,
    interleave first_fit race [push 2 1%nat; push 2 2%nat] fresh_queue
      = Some (log, [Ret tt; Ret tt], σ) ∧
    thread_log 1 log = race_steps_of_thread_1 ∧
    get_node (Some 1%positive) σ
      = Some (1%positive,
              node.mk (Some 2%positive) (node_counter.mk 0 1)
                      (counted_node_ptr.mk 1 (Some 3%positive))) ∧
    ¬ release_frees_at_zero race_steps_of_thread_1.
Proof.
  eexists _, _. split_and!.
  - vm_compute. reflexivity.
  - vm_compute. reflexivity.
  - vm_compute. reflexivity.
  - intros Hclaim.
    destruct (Hclaim (take 6 race_steps_of_thread_1) (Some 1%positive)
                (node_counter.mk 1 1) (drop 7 race_steps_of_thread_1))
      as [post' Hpost]; [reflexivity|reflexivity|].
    discriminate Hpost.
Qed.

(** C9.  Not every concurrent execution is linearizable.  Under
    [lost_push] the three calls, push(1), push(2) and pop, all return, the
    pop with 1.  The value 2 is then in no node that [head] reaches: it is
    in node 1, which [head] has left, and [head] names node 5, which is
    empty and has no successor.  A pop that starts after the three calls
    have returned answers null, and the pop after that dereferences a null
    pointer.  No order of the three
    calls followed by the pop that answers null is a history of a first-in
    first-out queue: the calls of this execution have no linearization. *)
Theorem lost_push_not_linearizable :
  ∃ log σ σ',
    interleave first_fit lost_push
      [client 2 [Push 1%nat]; client 2 [Push 2%nat]; client 2 [Pop]] fresh_queue
    = Some (log, [Ret [Pushed 1%nat]; Ret [Pushed 2%nat];
                  Ret [Popped (Some 1%nat)]], σ) ∧
    head σ = counted_node_ptr.mk 1 (Some 5%positive) ∧
    get_node (Some 5%positive) σ
      = Some (5%positive,
              node.mk None (node_counter.mk (2 ^ 30 - 1) 1)
                      (counted_node_ptr.mk 0 None)) ∧
    get_node (Some 1%positive) σ
      = Some (1%positive,
              node.mk (Some 2%positive) (node_counter.mk 1 0)
                      (counted_node_ptr.mk 1 (Some 3%positive))) ∧
    get_value (Some 2%positive) σ = Some (2%positive, 2%nat) ∧
    run first_fit (client 2 [Pop]) σ = (Done [Popped None], σ') ∧
    (run first_fit (client 2 [Pop]) σ').1 = Aborted undefined_behaviour ∧
    (∀ h, [Pushed 1%nat; Pushed 2%nat; Popped (Some 1%nat)] ≡ₚ h →
          ∀ q, ¬ fifo_spec (h ++ [Popped None]) [] q).
Proof.
  eexists _, _, _. split; [vm_compute; reflexivity|].
  do 6 (split; [vm_compute; reflexivity|]).
  intros h Hh q. apply permutations_Permutation in Hh.
  vm_compute in Hh.
  repeat (apply elem_of_cons in Hh as [->|Hh]);
    [..|by apply elem_of_nil in Hh]; simpl; intuition discriminate.
Qed.

(** Witness of C4: after the same client, [tail] names a dummy. *)
Lemma tail_is_dummy_witness :
  run first_fit lock_free_queue no_queue = (Done tt, fresh_queue) ∧
  ∃ tr σ2 tp nd,
    run first_fit (client 1 [Push 7; Pop; Pop; Push 8; Push 9]%nat) fresh_queue
      = (Done tr, σ2) ∧
    get_node (counted_node_ptr.ptr (tail σ2)) σ2 = Some (tp, nd) ∧
    node.data nd = None.
Proof.
  split; [vm_compute; reflexivity|].
  apply (tail_is_dummy first_fit first_fit_fresh 0
           [Push 7; Pop; Pop; Push 8; Push 9]%nat no_queue fresh_queue).
  vm_compute. reflexivity.
Defined.

(** Witness of C5: [push(7)] takes [fresh_queue] to [one_value_queue],
    from where the pops return the cell of 7 and then null. *)
Lemma one_element_boundary_witness :
  run first_fit lock_free_queue no_queue = (Done tt, fresh_queue) ∧
  run first_fit (push 1 7%nat) fresh_queue = (Done tt, one_value_queue) ∧
  ∃ a σ3 σ4,
    run first_fit (pop 1) one_value_queue = (Done (Some a), σ3) ∧
    get_value (Some a) σ3 = Some (a, 7%nat) ∧
    run first_fit (pop 1) σ3 = (Done None, σ4).
Proof.
  split; [vm_compute; reflexivity|].
  split; [vm_compute; reflexivity|].
  apply (one_element_boundary first_fit first_fit_fresh 0 7%nat
           no_queue fresh_queue one_value_queue).
  - vm_compute. reflexivity.
  - vm_compute. reflexivity.
Defined.

(** Witness of C6: the pop on [fresh_queue]. *)
Lemma pop_on_fresh_queue_witness :
  run first_fit lock_free_queue no_queue = (Done tt, fresh_queue) ∧
  ∃ d,
    head fresh_queue = counted_node_ptr.mk 1 (Some d) ∧
    heap fresh_queue !! d = Some (dummy_node 0) ∧
    run first_fit (pop 1) fresh_queue =
      (Done None,
       mk_state (counted_node_ptr.mk 2 (Some d)) (tail fresh_queue)
                (<[d := dummy_node (internal_modulus - 1)]> (heap fresh_queue))).
Proof.
  split; [vm_compute; reflexivity|].
  apply (pop_on_fresh_queue first_fit first_fit_fresh 0 no_queue fresh_queue).
  vm_compute. reflexivity.
Defined.

(** Witness of C7: the destructor after a client that leaves 8 and 9. *)
Lemma destructor_drains_witness :
  run first_fit lock_free_queue no_queue = (Done tt, fresh_queue) ∧
  ∃ tr σ2 rest,
    run first_fit (client 1 [Push 7; Pop; Pop; Push 8; Push 9]%nat) fresh_queue
      = (Done tr, σ2) ∧
    pushed_values tr = popped_values tr ++ rest ∧
    ((length rest < 3)%nat →
     ∃ σ3, run first_fit (lock_free_queue_destructor 3) σ2 = (Done tt, σ3) ∧
           heap σ3 = heap no_queue).
Proof.
  split; [vm_compute; reflexivity|].
  destruct (destructor_drains first_fit first_fit_fresh 0
              [Push 7; Pop; Pop; Push 8; Push 9]%nat no_queue fresh_queue)
    as (tr & σ2 & rest & Hrun & Hv & Hd).
  - vm_compute. reflexivity.
  - exists tr, σ2, rest. split_and!; [assumption|assumption|].
    intros Hlen.
    destruct (Hd 2%nat Hlen) as (σe & σ3 & tp & c & _ & _ & _ & _ & _ & Hrun3 & Hheap).
    exists σ3. split; assumption.
Defined.

(** Witness of C8: with room for two cells, the copy of the value is
    allocated, the node is not, and the push leaves [fresh_queue] as it
    was. *)
Lemma push_allocation_failure_witness :
  bounded_fit 2 (heap fresh_queue) = Some 2%positive ∧
  bounded_fit 2 (<[2%positive := CVal 7%nat]> (heap fresh_queue)) = None ∧
  run (bounded_fit 2) (push 1 7%nat) fresh_queue = (Aborted bad_alloc, fresh_queue).
Proof.
  split; [vm_compute; reflexivity|].
  split; [vm_compute; reflexivity|].
  apply (proj1 (proj2 (push_allocation_failure (bounded_fit 2) (bounded_fit_fresh 2)
                         1 7%nat fresh_queue)) 2%positive).
  - vm_compute. reflexivity.
  - vm_compute. reflexivity.
Defined.

(** Witness of C10: on the node of [fresh_queue], whose internal count is
    0, [release_ref] stores [2^30 - 1]; so does [free_external_counter]
    for a slot value with [external_count = 1], adding [-1]. *)
Lemma counters_wrap_witness :
  run first_fit (release_ref 1 (Some 1%positive)) fresh_queue =
    (Done tt, put_node 1%positive
                (node.mk None (node_counter.mk (2 ^ 30 - 1) 2)
                         (counted_node_ptr.mk 0 None)) fresh_queue) ∧
  run first_fit (free_external_counter 1 (counted_node_ptr.mk 1 (Some 1%positive)))
      fresh_queue =
    (Done tt, put_node 1%positive
                (node.mk None (node_counter.mk (2 ^ 30 - 1) 1)
                         (counted_node_ptr.mk 0 None)) fresh_queue).
Proof.
  destruct (counters_wrap first_fit 0 fresh_queue (Some 1%positive) 1%positive
              None 2 (counted_node_ptr.mk 0 None)
              (counted_node_ptr.mk 1 (Some 1%positive)) 1%positive new_node)
    as (Hrel & Hfree & _).
  - vm_compute. reflexivity.
  - vm_compute. reflexivity.
  - split; [exact Hrel|exact Hfree].
Defined.

(** [pop] on a queue whose only node already holds a value, the producer
    not having moved [tail] yet: null, and the value is still installed. *)
Lemma pop_when_head_is_tail_witness :
  counted_node_ptr.ptr (head half_pushed_queue)
    = counted_node_ptr.ptr (tail half_pushed_queue) ∧
  run first_fit (pop 1) half_pushed_queue =
    (Done None,
     put_node 1%positive
       (node.mk (Some 2%positive) (node_counter.mk (2 ^ 30 - 1) 2)
                (counted_node_ptr.mk 0 None))
       (set_slot Head (counted_node_ptr.mk 2 (Some 1%positive)) half_pushed_queue)).
Proof.
  split; [vm_compute; reflexivity|].
  refine (pop_when_head_is_tail first_fit 0 half_pushed_queue 1%positive
            (node.mk (Some 2%positive) (node_counter.mk 0 2)
                     (counted_node_ptr.mk 0 None)) _ _ _).
  - vm_compute. reflexivity.
  - vm_compute. reflexivity.
  - vm_compute. discriminate.
Defined.

(** A second producer on the half-pushed queue runs out of its three
    iterations. *)
Lemma push_waits_for_linker_witness :
  ∃ σ' nd',
    run first_fit (push 3 8%nat) half_pushed_queue = (Aborted out_of_fuel, σ') ∧
    get_node (counted_node_ptr.ptr (tail σ')) σ' = Some (1%positive, nd') ∧
    node.data nd' = Some 2%positive ∧
    head σ' = head half_pushed_queue.
Proof.
  refine (push_waits_for_linker first_fit first_fit_fresh 3 8%nat half_pushed_queue
            1%positive
            (node.mk (Some 2%positive) (node_counter.mk 0 2)
                     (counted_node_ptr.mk 0 None))
            4%positive 5%positive _ _ _ _ _).
  - vm_compute. reflexivity.
  - vm_compute. discriminate.
  - vm_compute. discriminate.
  - vm_compute. reflexivity.
  - vm_compute. reflexivity.
Defined.

(** Five operations that leave two values in the queue: five cells. *)
Lemma queue_footprint_witness :
  run first_fit lock_free_queue no_queue = (Done tt, fresh_queue) ∧
  ∃ tr σ2 rest,
    run first_fit (client 1 [Push 7; Pop; Pop; Push 8; Push 9]%nat) fresh_queue
      = (Done tr, σ2) ∧
    pushed_values tr = popped_values tr ++ rest ∧
    size (heap σ2) = (size (heap no_queue) + 1 + 2 * length rest)%nat.
Proof.
  split; [vm_compute; reflexivity|].
  apply (queue_footprint first_fit first_fit_fresh 0
           [Push 7; Pop; Pop; Push 8; Push 9]%nat no_queue fresh_queue).
  vm_compute. reflexivity.
Defined.

Lemma emptiness_test_exact_witness :
  run first_fit lock_free_queue no_queue = (Done tt, fresh_queue) ∧
  ∃ tr σ2 rest,
    run first_fit (client 1 [Push 7; Pop; Pop; Push 8; Pop]%nat) fresh_queue
      = (Done tr, σ2) ∧
    pushed_values tr = popped_values tr ++ rest ∧
    is_Some (get_node (counted_node_ptr.ptr (head σ2)) σ2) ∧
    counted_node_ptr.external_count (tail σ2) = 1 ∧
    (counted_node_ptr.ptr (head σ2) = counted_node_ptr.ptr (tail σ2) ↔ rest = []).
Proof.
  split; [vm_compute; reflexivity|].
  apply (emptiness_test_exact first_fit first_fit_fresh 0
           [Push 7; Pop; Pop; Push 8; Pop]%nat no_queue fresh_queue).
  vm_compute. reflexivity.
Defined.

Lemma pop_unlinks_head_witness :
  run first_fit lock_free_queue no_queue = (Done tt, fresh_queue) ∧
  ∃ tr σ2 rest,
    run first_fit (client 1 [Push 7; Pop; Pop; Push 8; Push 9]%nat) fresh_queue
      = (Done tr, σ2) ∧
    pushed_values tr = popped_values tr ++ rest ∧
    ∀ v rest', rest = v :: rest' →
      ∃ hp nd a,
        get_node (counted_node_ptr.ptr (head σ2)) σ2 = Some (hp, nd) ∧
        node.data nd = Some a ∧
        heap σ2 !! a = Some (CVal v) ∧
        run first_fit (pop 1) σ2 =
          (Done (Some a), mk_state (node.next nd) (tail σ2) (delete hp (heap σ2))) ∧
        a ≠ hp.
Proof.
  split; [vm_compute; reflexivity|].
  apply (pop_unlinks_head first_fit first_fit_fresh 0
           [Push 7; Pop; Pop; Push 8; Push 9]%nat no_queue fresh_queue).
  vm_compute. reflexivity.
Defined.

(** The constants of the test: 4 producers of 2500 items. *)
Lemma producers_cover_range_witness :
  all_producer_values 4 2500 = seqZ 0 (4 * 2500) ∧
  NoDup (all_producer_values 4 2500) ∧
  (∀ p, 0 ≤ p < 4 → producer_values 2500 p = seqZ (p * 2500) 2500).
Proof.
  apply (producers_cover_range 4 2500).
  - lia.
  - lia.
  - unfold INT_MAX. lia.
Defined.

(** Two producers of three items, popped in some order. *)
Lemma verification_exact_witness :
  verification (to_int (2 * 3)) (consumed [4; 0; 5; 1; 3; 2]) = true ∧
  [4; 0; 5; 1; 3; 2] ≡ₚ all_producer_values 2 3.
Proof.
  split; [vm_compute; reflexivity|].
  apply (verification_exact 2 3 [4; 0; 5; 1; 3; 2]).
  - lia.
  - lia.
  - unfold INT_MAX. lia.
  - unfold INT_MAX. simpl. lia.
  - apply Forall_forall. apply (bool_decide_unpack _). vm_compute. exact I.
  - vm_compute. reflexivity.
Defined.
